(** * Farrington-Manning test for rate differences: a shallow embedding

    The development follows [farrington_manning.py].  Python floats are
    idealised as real numbers (no rounding, no overflow, a single zero);
    the IEEE special values that NumPy arithmetic produces instead of
    raising (NaN and the two infinities) are kept explicit, because the
    program's behaviour on degenerate inputs depends on them.  Python
    exceptions are an explicit error result.

    Conventions.  The lengths of the groups are Python ints ([nat]); a
    group is a list of booleans; [np.mean], [np.sign] and the arithmetic
    that involves their results are NumPy operations (a zero divisor
    gives an infinity or NaN), whereas [n2 / n1] divides two Python ints
    and raises on zero.  [scipy.stats.norm] and [scipy.optimize.brentq]
    are parameters of the entry point. *)

From Stdlib Require Import Reals Lra Psatz List String Ascii Bool Arith.
Import ListNotations.
Open Scope R_scope.

(** ** Values and exceptions *)

Inductive fval : Type :=
| Fin (r : R)
| PInf
| NInf
| NaN.

Inductive exn : Type :=
| ValueError (msg : string)
| ZeroDivisionError
| RuntimeError (msg : string).

Inductive result (A : Type) : Type :=
| Ok (a : A)
| Raise (e : exn).

Arguments Ok {A} a.
Arguments Raise {A} e.

Definition bind {A B : Type} (c : result A) (k : A -> result B) : result B :=
  match c with
  | Ok a => k a
  | Raise e => Raise e
  end.

Notation "x <- c ;; k" := (bind c (fun x => k))
  (at level 61, c at next level, right associativity).

(** Message of the [ValueError] raised by [math.sqrt], [math.acos] and
    [math.cos] outside their domain. *)
Definition math_domain_error : exn := ValueError "math domain error".

(** ** Float arithmetic *)

Module Float.

Definition Rsign (r : R) : R :=
  if Rlt_dec 0 r then 1 else if Rlt_dec r 0 then -1 else 0.

Definition neg (x : fval) : fval :=
  match x with
  | Fin r => Fin (- r)
  | PInf => NInf
  | NInf => PInf
  | NaN => NaN
  end.

Definition add (x y : fval) : fval :=
  match x, y with
  | NaN, _ | _, NaN => NaN
  | Fin a, Fin b => Fin (a + b)
  | PInf, NInf | NInf, PInf => NaN
  | PInf, _ | _, PInf => PInf
  | NInf, _ | _, NInf => NInf
  end.

Definition sub (x y : fval) : fval := add x (neg y).

(** An infinity scaled by a finite factor. *)
Definition scale_inf (pos : bool) (r : R) : fval :=
  if Rlt_dec 0 r then (if pos then PInf else NInf)
  else if Rlt_dec r 0 then (if pos then NInf else PInf)
  else NaN.

Definition mul (x y : fval) : fval :=
  match x, y with
  | NaN, _ | _, NaN => NaN
  | Fin a, Fin b => Fin (a * b)
  | PInf, Fin r | Fin r, PInf => scale_inf true r
  | NInf, Fin r | Fin r, NInf => scale_inf false r
  | PInf, PInf | NInf, NInf => PInf
  | PInf, NInf | NInf, PInf => NInf
  end.

(** True division of NumPy floats: a zero divisor gives an infinity or
    NaN (with a warning), never an exception. *)
Definition div (x y : fval) : fval :=
  match x, y with
  | NaN, _ | _, NaN => NaN
  | Fin a, Fin b =>
      if Req_dec_T b 0
      then (if Rlt_dec 0 a then PInf else if Rlt_dec a 0 then NInf else NaN)
      else Fin (a / b)
  | Fin _, _ => Fin 0
  | PInf, Fin b => if Rlt_dec b 0 then NInf else PInf
  | NInf, Fin b => if Rlt_dec b 0 then PInf else NInf
  | _, _ => NaN
  end.

(** [pow(x, n)] for the literal exponents 2 and 3 of the source. *)
Fixpoint pow (x : fval) (n : nat) : fval :=
  match n with
  | O => Fin 1
  | S m => mul x (pow x m)
  end.

Definition ltb (x y : fval) : bool :=
  match x, y with
  | NaN, _ | _, NaN => false
  | Fin a, Fin b => if Rlt_dec a b then true else false
  | NInf, NInf | PInf, _ => false
  | NInf, _ => true
  | Fin _, PInf => true
  | Fin _, NInf => false
  end.

(** Python's [min(a, b)]: [b] when [b < a], else [a]. *)
Definition min (a b : fval) : fval := if ltb b a then b else a.

(** [np.sign]. *)
Definition sign (x : fval) : fval :=
  match x with
  | Fin r => Fin (Rsign r)
  | PInf => Fin 1
  | NInf => Fin (-1)
  | NaN => NaN
  end.

(** [math.sqrt]. *)
Definition sqrt (x : fval) : result fval :=
  match x with
  | Fin r => if Rlt_dec r 0 then Raise math_domain_error else Ok (Fin (R_sqrt.sqrt r))
  | PInf => Ok PInf
  | NInf => Raise math_domain_error
  | NaN => Ok NaN
  end.

(** [math.acos]. *)
Definition acos (x : fval) : result fval :=
  match x with
  | Fin r =>
      if Rlt_dec r (-1) then Raise math_domain_error
      else if Rlt_dec 1 r then Raise math_domain_error
      else Ok (Fin (Ratan.acos r))
  | PInf | NInf => Raise math_domain_error
  | NaN => Ok NaN
  end.

(** [math.cos]. *)
Definition cos (x : fval) : result fval :=
  match x with
  | Fin r => Ok (Fin (Rtrigo_def.cos r))
  | PInf | NInf => Raise math_domain_error
  | NaN => Ok NaN
  end.

(** [n2 / n1] on Python ints: raises on a zero divisor. *)
Definition int_truediv (n m : nat) : result fval :=
  match m with
  | O => Raise ZeroDivisionError
  | S _ => Ok (Fin (INR n / INR m))
  end.

Definition of_int (n : nat) : fval := Fin (INR n).

Definition le (x y : fval) : Prop :=
  match x, y with
  | NaN, _ | _, NaN => False
  | Fin a, Fin b => a <= b
  | NInf, _ | _, PInf => True
  | _, _ => False
  end.

End Float.

Declare Scope float_scope.
Delimit Scope float_scope with fl.
Infix "+" := Float.add : float_scope.
Infix "-" := Float.sub : float_scope.
Infix "*" := Float.mul : float_scope.
Infix "/" := Float.div : float_scope.
Notation "- x" := (Float.neg x) : float_scope.
Notation "x ^ n" := (Float.pow x n) : float_scope.
Notation "# r" := (Fin r) (at level 5, r at level 0) : float_scope.

(** ** The restricted maximum-likelihood solver *)

Definition pi : fval := Fin PI.

Definition _get_sd_diff_ML_null (n1 n2 : nat) (p1_ml p2_ml delta : fval)
  : result fval :=
  (theta <- Float.int_truediv n2 n1 ;;
   let d := - p1_ml * delta * (#1 + delta) in
   let c := delta ^ 2 + delta * (#2 * p1_ml + theta + #1) + p1_ml + theta * p2_ml in
   let b := - (#1 + theta + p1_ml + theta * p2_ml + delta * (theta + #2)) in
   let a := #1 + theta in
   let v := b ^ 3 / (#27 * a ^ 3) - b * c / (#6 * a ^ 2) + d / (#2 * a) in
   r <- Float.sqrt (b ^ 2 / (#9 * a ^ 2) - c / (#3 * a)) ;;
   let u := Float.sign v * r in
   ac <- Float.acos (v / u ^ 3) ;;
   let w := (pi + ac) / #3 in
   cw <- Float.cos w ;;
   let p1_ML_null := #2 * u * cw - b / (#3 * a) in
   let p2_ML_null := p1_ML_null - delta in
   Float.sqrt
     (p1_ML_null * (#1 - p1_ML_null) / Float.of_int n1
      + p2_ML_null * (#1 - p2_ML_null) / Float.of_int n2))%fl.

(** [diff_ml] is always the NumPy float computed by the entry point, so
    the division follows NumPy's rules. *)
Definition _get_z (diff_ml delta sd_diff : fval) : fval :=
  ((diff_ml - delta) / sd_diff)%fl.

(** ** Argument handling *)

(** [str.casefold] on the ASCII range: upper-case letters are lowered,
    every other byte is kept. *)
Definition casefold_ascii (ch : ascii) : ascii :=
  let n := nat_of_ascii ch in
  if (65 <=? n)%nat && (n <=? 90)%nat then ascii_of_nat (n + 32) else ch.

Fixpoint casefold (s : string) : string :=
  match s with
  | EmptyString => EmptyString
  | String ch rest => String (casefold_ascii ch) (casefold rest)
  end.

Fixpoint str_in (s : string) (l : list string) : bool :=
  match l with
  | [] => false
  | x :: rest => if String.eqb s x then true else str_in s rest
  end.

(** [np.mean([int(val) for val in group])]: the sum over the length, as
    a NumPy division (an empty group gives NaN and a warning). *)
Definition int_of_bool (val : bool) : nat := if val then 1%nat else 0%nat.

Definition np_mean (group : list bool) : fval :=
  (Float.of_int (list_sum (map int_of_bool group))
   / Float.of_int (List.length group))%fl.

Record TestResult : Type := mkResult {
  rate_difference : fval;
  z_statistic : fval;
  p_value : fval;
  ci : fval * fval
}.

Definition alternative_error : exn :=
  ValueError "alternative must be one of `two-sided`, `greater` or `less`".

(** ** The test, over its two external collaborators *)

Section FarringtonManning.

(** [scipy.stats.norm.sf] and [scipy.stats.norm.cdf]. *)
Variables norm_sf norm_cdf : fval -> fval.

(** [scipy.optimize.brentq f a b]: a root of [f] between [a] and [b],
    or an exception. *)
Variable brentq : (fval -> fval) -> fval -> fval -> result fval.

Definition _get_ci (delta diff_ml sd_diff alpha_mod : fval) : fval :=
  let z := _get_z diff_ml delta sd_diff in
  (#2 * Float.min (norm_sf z) (norm_cdf z) - alpha_mod)%fl.

Definition farrington_manning (group1 group2 : list bool) (delta : fval)
    (alternative : string) (alpha : fval) : result TestResult :=
  if negb (str_in (casefold alternative) ["two-sided"; "greater"; "less"]%string)
  then Raise alternative_error
  else
    let n1 := List.length group1 in
    let n2 := List.length group2 in
    let p1_ml := np_mean group1 in
    let p2_ml := np_mean group2 in
    let diff_ml := (p1_ml - p2_ml)%fl in
    sd_diff_ml_null <- _get_sd_diff_ML_null n1 n2 p1_ml p2_ml delta ;;
    let z := _get_z diff_ml delta sd_diff_ml_null in
    let p_value :=
      if String.eqb (casefold alternative) "two-sided"
      then (#2 * Float.min (norm_sf z) (norm_cdf z))%fl
      else if String.eqb (casefold alternative) "greater"
      then norm_sf z
      else norm_cdf z in
    let alpha_mod :=
      if String.eqb (casefold alternative) "two-sided" then alpha
      else (#2 * alpha)%fl in
    ci_lower <- brentq (fun x => _get_ci x diff_ml sd_diff_ml_null alpha_mod)
                  (Fin (-1 + 1 / 1000000)) diff_ml ;;
    ci_upper <- brentq (fun x => _get_ci x diff_ml sd_diff_ml_null alpha_mod)
                  diff_ml (Fin (1 - 1 / 1000000)) ;;
    Ok {| rate_difference := diff_ml;
          z_statistic := z;
          p_value := p_value;
          ci := (ci_lower, ci_upper) |}.

End FarringtonManning.

(** ** The solver's formulas over the reals

    A second definition, written from the description of the restricted
    maximum-likelihood solver: plain real-number formulas, with Rocq's
    total [sqrt], [acos] and division. *)

Module Spec.

Section Formulas.

Variables (n1 n2 : nat) (p1_ml p2_ml delta : R).

Definition theta : R := INR n2 / INR n1.
Definition a : R := 1 + theta.
Definition b : R := - (1 + theta + p1_ml + theta * p2_ml + delta * (theta + 2)).
Definition c : R := delta ^ 2 + delta * (2 * p1_ml + theta + 1) + p1_ml + theta * p2_ml.
Definition d : R := - p1_ml * delta * (1 + delta).
Definition v : R := b ^ 3 / (27 * a ^ 3) - b * c / (6 * a ^ 2) + d / (2 * a).
(** The radicand of [u]. *)
Definition disc : R := b ^ 2 / (9 * a ^ 2) - c / (3 * a).
Definition u : R := Float.Rsign v * sqrt disc.
Definition w : R := (PI + acos (v / u ^ 3)) / 3.
Definition p1_null : R := 2 * u * cos w - b / (3 * a).
Definition p2_null : R := p1_null - delta.
Definition variance : R :=
  p1_null * (1 - p1_null) / INR n1 + p2_null * (1 - p2_null) / INR n2.
Definition sd_null : R := sqrt variance.

End Formulas.

End Spec.

(** ** Collaborators used to run the test on concrete inputs *)

(** A symmetric, increasing distribution function with [cdf 0 = 1/2]. *)
Definition cdf_stub (z : fval) : fval :=
  match z with
  | Fin r => Fin (1 / 2 + 100 * r / (2 * (1 + 100 * Rabs r)))
  | PInf => Fin 1
  | NInf => Fin 0
  | NaN => NaN
  end.

Definition sf_stub (z : fval) : fval := cdf_stub (Float.neg z).

Definition sign_error : exn :=
  ValueError "f(a) and f(b) must have different signs".

(** A bracketed solver cut after its first step: the sign check of
    [brentq], then the midpoint of the bracket. *)
Definition brentq_stub (f : fval -> fval) (a b : fval) : result fval :=
  if Float.ltb (Fin 0) (f a * f b)%fl then Raise sign_error
  else Ok ((a + b) / #2)%fl.

(** ** Auxiliary definitions used by the statements and proofs *)

(** What is left of the solver once the coefficients are known: the part
    that can raise or leave the finite range. *)
Definition solver_tail (n1 n2 : nat) (delta shift v disc : R) : result fval :=
  (r <- Float.sqrt (Fin disc) ;;
   let u := Float.sign (Fin v) * r in
   ac <- Float.acos (Fin v / u ^ 3) ;;
   let w := (pi + ac) / #3 in
   cw <- Float.cos w ;;
   let p1_ML_null := #2 * u * cw - Fin shift in
   let p2_ML_null := p1_ML_null - Fin delta in
   Float.sqrt
     (p1_ML_null * (#1 - p1_ML_null) / Float.of_int n1
      + p2_ML_null * (#1 - p2_ML_null) / Float.of_int n2))%fl.



(** The depressed cubic [y^3 - 3 D y + 2 v]. *)
Definition Q (D v y : R) : R := y ^ 3 - 3 * D * y + 2 * v.

(** The cubic of the restricted likelihood, [a p^3 + b p^2 + c p + d]. *)
Definition cubic (n1 n2 : nat) (p1 p2 dl p : R) : R :=
  Spec.a n1 n2 * p ^ 3 + Spec.b n1 n2 p1 p2 dl * p ^ 2
  + Spec.c n1 n2 p1 p2 dl * p + Spec.d p1 dl.

(** The admissible range of the restricted estimate of [p1]: both
    [p1] and [p2 = p1 - delta] are probabilities. *)
Definition lo (dl : R) : R := Rmax 0 dl.
Definition hi (dl : R) : R := Rmin 1 (1 + dl).

(** The pooled proportion of the two groups. *)
Definition pooled (n1 n2 : nat) (p1 p2 : R) : R :=
  (p1 + Spec.theta n1 n2 * p2) / (1 + Spec.theta n1 n2).

(** The recognised alternatives. *)
Definition alternatives : list string := ["two-sided"; "greater"; "less"]%string.

(** The level of the interval search, over the reals. *)
Definition alpha_mod_of (alt : string) (alpha : R) : R :=
  if String.eqb (casefold alt) "two-sided" then alpha else 2 * alpha.

(** [brentq]'s test on the ends of a bracket: [f(a) * f(b) > 0]. *)
Definition same_sign (x y : fval) : Prop := Float.ltb (Fin 0) (x * y)%fl = true.

(** [x] lies between [a] and [b], in either order. *)
Definition between (a b x : fval) : Prop :=
  (Float.le a x /\ Float.le x b) \/ (Float.le b x /\ Float.le x a).

(** A root-finder that only reports its target at a fixed candidate. *)
Definition brentq_probe (candidate : fval) (f : fval -> fval) (a b : fval)
  : result fval := Ok (f candidate).

(** Two outcomes of the entry point that agree on everything but the
    p-value. *)
Definition same_but_p_value (x y : result TestResult) : Prop :=
  match x, y with
  | Ok r1, Ok r2 =>
      rate_difference r1 = rate_difference r2
      /\ z_statistic r1 = z_statistic r2 /\ ci r1 = ci r2
  | Raise e1, Raise e2 => e1 = e2
  | _, _ => False
  end.

(** One comparison of [numpy.testing.assert_allclose]:
    [|actual - desired| <= atol + rtol * |desired|]; a NaN or infinite
    [actual] against a finite [desired] is a mismatch. *)
Definition isclose (actual : fval) (desired rtol atol : R) : Prop :=
  match actual with
  | Fin a => Rabs (a - desired) <= atol + rtol * Rabs desired
  | _ => False
  end.

(** The data of [test_farrington_manning.py]. *)
Definition test_x : list bool := repeat true 20 ++ repeat false 15.
Definition test_y : list bool := repeat true 30 ++ repeat false 25.

Section Tests.

Variables norm_sf norm_cdf : fval -> fval.
Variable brentq : (fval -> fval) -> fval -> fval -> result fval.

(** [test_farrington_ci]: the call must return, and
    [assert_allclose(actual["ci"], expected, atol=5)] must hold, with
    the default [rtol = 1e-07]. *)
Definition test_farrington_ci : Prop :=
  match farrington_manning norm_sf norm_cdf brentq test_x test_y
          (Fin (-3 / 10)) "greater" (Fin (1 / 20)) with
  | Ok actual =>
      isclose (fst (ci actual)) (-1824742 / 10000000) (1 / 10000000) 5
      /\ isclose (snd (ci actual)) (2282376 / 10000000) (1 / 10000000) 5
  | Raise _ => False
  end.

End Tests.

Ltac decide_reals :=
  repeat match goal with
    | |- context [Rlt_dec ?a ?b] => destruct (Rlt_dec a b); try lra; try (exfalso; nra)
    | |- context [Req_dec_T ?a ?b] => destruct (Req_dec_T a b); try lra; try (exfalso; nra)
    end.

(** * Basic facts *)

Lemma bind_ok {A B : Type} (c : result A) (k : A -> result B) (y : B) :
  bind c k = Ok y -> exists x, c = Ok x /\ k x = Ok y.
Proof.
  destruct c as [x|e]; simpl; intros H; [eauto | discriminate].
Qed.

Lemma div_fin (x y : R) : y <> 0 -> Float.div (Fin x) (Fin y) = Fin (x / y).
Proof.
  intros Hy. simpl. destruct (Req_dec_T y 0); [contradiction | reflexivity].
Qed.

Lemma sqrt_fin (x : R) : 0 <= x -> Float.sqrt (Fin x) = Ok (Fin (sqrt x)).
Proof.
  intros Hx. simpl. destruct (Rlt_dec x 0); [lra | reflexivity].
Qed.

Lemma acos_fin (x : R) :
  -1 <= x <= 1 -> Float.acos (Fin x) = Ok (Fin (acos x)).
Proof.
  intros Hx. simpl.
  destruct (Rlt_dec x (-1)); [lra|]. destruct (Rlt_dec 1 x); [lra | reflexivity].
Qed.

Lemma Rsign_pos (r : R) : 0 < r -> Float.Rsign r = 1.
Proof.
  intros H. unfold Float.Rsign. destruct (Rlt_dec 0 r); [reflexivity | lra].
Qed.

Lemma Rsign_neg (r : R) : r < 0 -> Float.Rsign r = -1.
Proof.
  intros H. unfold Float.Rsign.
  destruct (Rlt_dec 0 r); [lra|]. destruct (Rlt_dec r 0); [reflexivity | lra].
Qed.

Lemma Rsign_zero : Float.Rsign 0 = 0.
Proof.
  unfold Float.Rsign.
  destruct (Rlt_dec 0 0); [lra|]. destruct (Rlt_dec 0 0); [lra | reflexivity].
Qed.

Lemma Rsign_sqr (r : R) : r <> 0 -> Float.Rsign r * Float.Rsign r = 1.
Proof.
  intros H. destruct (Rlt_dec 0 r).
  - rewrite Rsign_pos by assumption. ring.
  - rewrite Rsign_neg by lra. ring.
Qed.

Lemma Rsign_abs (r : R) : Float.Rsign r * Rabs r = r.
Proof.
  destruct (Rlt_dec 0 r).
  - rewrite Rsign_pos, Rabs_pos_eq by lra. ring.
  - destruct (Rlt_dec r 0).
    + rewrite Rsign_neg, Rabs_left by lra. ring.
    + replace r with 0 by lra. rewrite Rsign_zero. ring.
Qed.

Lemma INR_S_pos (k : nat) : 0 < INR (S k).
Proof. apply lt_0_INR. apply Nat.lt_0_succ. Qed.

Lemma theta_nonneg (n1 n2 : nat) : 0 <= Spec.theta n1 n2.
Proof.
  unfold Spec.theta. destruct n1 as [|k].
  - simpl. unfold Rdiv. rewrite Rinv_0. lra.
  - apply Rle_mult_inv_pos; [apply pos_INR | apply INR_S_pos].
Qed.

Lemma a_pos (n1 n2 : nat) : 1 <= Spec.a n1 n2.
Proof. unfold Spec.a. pose proof (theta_nonneg n1 n2). lra. Qed.

(** * The solver on finite inputs *)

Lemma solver_fin (k n2 : nat) (p1 p2 dl : R) :
  _get_sd_diff_ML_null (S k) n2 (Fin p1) (Fin p2) (Fin dl) =
  solver_tail (S k) n2 dl
    (Spec.b (S k) n2 p1 p2 dl / (3 * Spec.a (S k) n2))
    (Spec.v (S k) n2 p1 p2 dl) (Spec.disc (S k) n2 p1 p2 dl).
Proof.
  pose proof (a_pos (S k) n2) as Ha.
  unfold _get_sd_diff_ML_null, solver_tail.
  cbn [Float.int_truediv bind Float.add Float.sub Float.mul Float.neg Float.pow].
  fold (Spec.theta (S k) n2). fold (Spec.a (S k) n2).
  set (A := Spec.a (S k) n2) in *.
  assert (HA3 : 27 * (A * (A * (A * 1))) <> 0) by nra.
  assert (HA2 : 6 * (A * (A * 1)) <> 0) by nra.
  assert (HA2' : 9 * (A * (A * 1)) <> 0) by nra.
  assert (HA1 : 2 * A <> 0) by nra.
  assert (HA1' : 3 * A <> 0) by nra.
  rewrite !div_fin by assumption.
  cbn [Float.add Float.sub Float.mul Float.neg].
  reflexivity.
Qed.

Lemma pow3_nonzero (x : R) : x <> 0 -> x * (x * (x * 1)) <> 0.
Proof.
  intros Hx. repeat apply Rmult_integral_contrapositive_currified; auto; lra.
Qed.

(** The solver returns the value of the real formulas whenever these are
    defined: positive sample sizes, non-zero [u], arguments of the
    square roots and of the arccosine in their domains. *)
Lemma solver_defined (n1 n2 : nat) (p1 p2 dl : R) :
  (0 < n1)%nat -> (0 < n2)%nat ->
  0 <= Spec.disc n1 n2 p1 p2 dl ->
  Spec.u n1 n2 p1 p2 dl <> 0 ->
  -1 <= Spec.v n1 n2 p1 p2 dl / Spec.u n1 n2 p1 p2 dl ^ 3 <= 1 ->
  0 <= Spec.variance n1 n2 p1 p2 dl ->
  _get_sd_diff_ML_null n1 n2 (Fin p1) (Fin p2) (Fin dl)
  = Ok (Fin (Spec.sd_null n1 n2 p1 p2 dl)).
Proof.
  intros H1 H2 Hdisc Hu Harg Hvar.
  destruct n1 as [|k1]; [inversion H1|]. destruct n2 as [|k2]; [inversion H2|].
  rewrite solver_fin. unfold solver_tail.
  rewrite sqrt_fin by assumption.
  cbn [bind Float.sign Float.mul Float.pow].
  fold (Spec.u (S k1) (S k2) p1 p2 dl).
  rewrite div_fin by (apply pow3_nonzero; assumption).
  change (Spec.u (S k1) (S k2) p1 p2 dl * (Spec.u (S k1) (S k2) p1 p2 dl
          * (Spec.u (S k1) (S k2) p1 p2 dl * 1)))
    with (Spec.u (S k1) (S k2) p1 p2 dl ^ 3).
  rewrite acos_fin by assumption.
  cbn [bind pi Float.add].
  rewrite div_fin by lra.
  fold (Spec.w (S k1) (S k2) p1 p2 dl).
  cbn [Float.cos bind Float.mul Float.sub Float.add Float.neg].
  unfold Float.of_int.
  rewrite !div_fin by (apply Rgt_not_eq, INR_S_pos).
  cbn [Float.add].
  apply sqrt_fin. exact Hvar.
Qed.



(** * The depressed cubic and its trigonometric root

    With [x = p + b/(3a)] the cubic of the restricted likelihood becomes
    [x^3 - 3 D x + 2 v = 0], where [D] is the radicand of [u].  Whenever
    the cubic is non-negative at some point and non-positive at a larger
    one, [D] is positive, [v^2 <= D^3], and the root that the solver
    computes lies between the two points. *)

Lemma cos_3a (x : R) : cos (3 * x) = 4 * cos x ^ 3 - 3 * cos x.
Proof.
  replace (3 * x) with (2 * x + x) by ring.
  rewrite cos_plus, cos_2a_cos, sin_2a.
  pose proof (sin2_cos2 x) as H. unfold Rsqr in H.
  replace (2 * sin x * cos x * sin x) with (2 * cos x * (sin x * sin x)) by ring.
  replace (sin x * sin x) with (1 - cos x * cos x) by lra.
  ring.
Qed.

Section Depressed.

Variables D v : R.

Lemma Q_diff (x y : R) :
  Q D v y - Q D v x = (y - x) * (y * y + y * x + x * x - 3 * D).
Proof. unfold Q. ring. Qed.

Hypothesis bracket : exists xL xU, xL < xU /\ 0 <= Q D v xL /\ Q D v xU <= 0.

Lemma disc_pos : 0 < D.
Proof.
  destruct bracket as (xL & xU & Hlt & HL & HU).
  destruct (Rlt_dec 0 D) as [|Hn]; [assumption|exfalso].
  pose proof (Q_diff xL xU) as Hd.
  assert (0 < (xU - xL) * (xU * xU + xU * xL + xL * xL - 3 * D)).
  { apply Rmult_lt_0_compat; [lra|].
    destruct (Req_dec_T xL 0) as [->|HxL].
    - nra.
    - assert (He : xU * xU + xU * xL + xL * xL
                   = (xU + xL / 2) * (xU + xL / 2) + 3 / 4 * (xL * xL)) by field.
      assert (0 <= (xU + xL / 2) * (xU + xL / 2)) by nra.
      assert (0 < xL * xL) by (destruct (Rlt_dec 0 xL); nra).
      lra. }
  lra.
Qed.

Let s := sqrt D.

Lemma s_pos : 0 < s.
Proof. apply sqrt_lt_R0, disc_pos. Qed.

Lemma s_sqr : s * s = D.
Proof. apply sqrt_sqrt. left. apply disc_pos. Qed.

Lemma Q_incr_right (x y : R) : s <= x -> x < y -> Q D v x < Q D v y.
Proof.
  intros Hx Hxy. pose proof s_pos. pose proof s_sqr.
  pose proof (Q_diff x y) as Hd.
  assert (0 < (y - x) * (y * y + y * x + x * x - 3 * D)).
  { apply Rmult_lt_0_compat; [lra|]. nra. }
  lra.
Qed.

Lemma Q_incr_left (x y : R) : y <= - s -> x < y -> Q D v x < Q D v y.
Proof.
  intros Hy Hxy. pose proof s_pos. pose proof s_sqr.
  pose proof (Q_diff x y) as Hd.
  assert (0 < (y - x) * (y * y + y * x + x * x - 3 * D)).
  { apply Rmult_lt_0_compat; [lra|]. nra. }
  lra.
Qed.

Lemma Q_min (y : R) : - 2 * s <= y -> Q D v s <= Q D v y.
Proof.
  intros Hy. pose proof s_sqr.
  assert (Q D v y - Q D v s = (y - s) * (y - s) * (y + 2 * s)).
  { unfold Q. replace D with (s * s) by assumption. ring. }
  assert (0 <= (y - s) * (y - s) * (y + 2 * s)).
  { apply Rmult_le_pos; [apply Rle_0_sqr | lra]. }
  lra.
Qed.

Lemma Q_max (y : R) : y <= 2 * s -> Q D v y <= Q D v (- s).
Proof.
  intros Hy. pose proof s_sqr.
  assert (Q D v (- s) - Q D v y = (y + s) * (y + s) * (2 * s - y)).
  { unfold Q. replace D with (s * s) by assumption. ring. }
  assert (0 <= (y + s) * (y + s) * (2 * s - y)).
  { apply Rmult_le_pos; [apply Rle_0_sqr | lra]. }
  lra.
Qed.

Lemma v_bounds : - (s * s * s) <= v <= s * s * s.
Proof.
  destruct bracket as (xL & xU & Hlt & HL & HU).
  pose proof s_pos as Hs. pose proof s_sqr as Hss.
  assert (HQs : Q D v s = 2 * v - 2 * (s * s * s)).
  { unfold Q. replace D with (s * s) by assumption. ring. }
  assert (HQms : Q D v (- s) = 2 * v + 2 * (s * s * s)).
  { unfold Q. replace D with (s * s) by assumption. ring. }
  split.
  - destruct (Rle_dec xL (2 * s)) as [H|H].
    + pose proof (Q_max xL H). lra.
    + pose proof (Q_incr_right xL xU ltac:(lra) Hlt). lra.
  - destruct (Rle_dec (- 2 * s) xU) as [H|H].
    + pose proof (Q_min xU H). lra.
    + pose proof (Q_incr_left xL xU ltac:(lra) Hlt). lra.
Qed.

(** A root in the middle band [[-s, s]] lies inside the bracket. *)
Lemma middle_root_in_bracket (x xL xU : R) :
  xL < xU -> 0 <= Q D v xL -> Q D v xU <= 0 ->
  Q D v x = 0 -> - s <= x <= s -> xL <= x <= xU.
Proof.
  intros Hlt HL HU Hx Hband.
  pose proof s_pos as Hs. pose proof s_sqr as Hss.
  split.
  - destruct (Rle_dec xL x) as [|Hn]; [assumption|exfalso].
    assert (Hx' : x < xL) by lra.
    destruct (Rle_dec xL s) as [H|H].
    + pose proof (Q_diff x xL) as Hd.
      assert (Hf : xL * xL + xL * x + x * x - 3 * D <= 0) by nra.
      assert (Hp : (xL - x) * (xL * xL + xL * x + x * x - 3 * D) <= 0).
      { rewrite <- (Rmult_0_r (xL - x)). apply Rmult_le_compat_l; lra. }
      assert (Heq : (xL - x) * (xL * xL + xL * x + x * x - 3 * D) = 0) by lra.
      apply Rmult_integral in Heq. destruct Heq as [Heq|Heq]; [lra|].
      nra.
    + pose proof (Q_incr_right xL xU ltac:(lra) Hlt). lra.
  - destruct (Rle_dec x xU) as [|Hn]; [assumption|exfalso].
    assert (Hx' : xU < x) by lra.
    destruct (Rle_dec (- s) xU) as [H|H].
    + pose proof (Q_diff xU x) as Hd.
      assert (Hf : x * x + x * xU + xU * xU - 3 * D <= 0) by nra.
      assert (Hp : (x - xU) * (x * x + x * xU + xU * xU - 3 * D) <= 0).
      { rewrite <- (Rmult_0_r (x - xU)). apply Rmult_le_compat_l; lra. }
      assert (Heq : (x - xU) * (x * x + x * xU + xU * xU - 3 * D) = 0) by lra.
      apply Rmult_integral in Heq. destruct Heq as [Heq|Heq]; [lra|].
      nra.
    + pose proof (Q_incr_left xL xU ltac:(lra) Hlt). lra.
Qed.

End Depressed.

Lemma acos_le_PI2 (t : R) : 0 <= t <= 1 -> acos t <= PI / 2.
Proof.
  intros Ht. pose proof (acos_bound t) as Hb. pose proof PI_RGT_0.
  apply cos_decr_0; try lra.
  rewrite cos_PI2, cos_acos by lra. lra.
Qed.

Section TrigRoot.

Variables D v : R.
Hypothesis D_pos : 0 < D.
Hypothesis v_nonzero : v <> 0.
Hypothesis v_small : - (sqrt D * sqrt D * sqrt D) <= v <= sqrt D * sqrt D * sqrt D.

Let s := sqrt D.
Let u := Float.Rsign v * s.
Let t := v / u ^ 3.
Let w := (PI + acos t) / 3.
Let x := 2 * u * cos w.

Lemma trig_s_pos : 0 < s.
Proof. apply sqrt_lt_R0, D_pos. Qed.

Lemma trig_u_nonzero : u <> 0.
Proof.
  unfold u. pose proof trig_s_pos.
  apply Rmult_integral_contrapositive_currified; [|lra].
  intros H0. pose proof (Rsign_sqr v v_nonzero) as Hs. rewrite H0 in Hs. lra.
Qed.

Lemma trig_u_sqr : u * u = D.
Proof.
  unfold u. pose proof (Rsign_sqr v v_nonzero) as Hs.
  assert (Hss : s * s = D) by (apply sqrt_sqrt; lra).
  replace (Float.Rsign v * s * (Float.Rsign v * s)) with (Float.Rsign v * Float.Rsign v * (s * s)) by ring.
  rewrite Hs, Hss. ring.
Qed.

Lemma trig_t_eq : t = Rabs v / (s * s * s).
Proof.
  unfold t. pose proof trig_s_pos as Hs. pose proof trig_u_nonzero as Hu.
  pose proof (Rsign_sqr v v_nonzero) as Hsg.
  assert (Hu3 : u ^ 3 = Float.Rsign v * (s * s * s)).
  { unfold u. simpl.
    replace (Float.Rsign v * s * (Float.Rsign v * s * (Float.Rsign v * s * 1)))
      with (Float.Rsign v * Float.Rsign v * Float.Rsign v * (s * s * s)) by ring.
    rewrite Hsg. ring. }
  rewrite Hu3.
  assert (Float.Rsign v <> 0) by (intros H0; rewrite H0 in Hsg; lra).
  assert (s * s * s <> 0) by (apply Rgt_not_eq; repeat apply Rmult_lt_0_compat; lra).
  rewrite <- (Rsign_abs v) at 1. field. split; try assumption; lra.
Qed.

Lemma trig_t_range : 0 <= t <= 1.
Proof.
  rewrite trig_t_eq. pose proof trig_s_pos as Hs.
  assert (H3 : 0 < s * s * s) by (repeat apply Rmult_lt_0_compat; lra).
  assert (Habs : Rabs v <= s * s * s).
  { apply Rabs_le. exact v_small. }
  pose proof (Rabs_pos v).
  split.
  - apply Rle_mult_inv_pos; lra.
  - apply (Rmult_le_reg_r (s * s * s)); [lra|].
    unfold Rdiv. rewrite Rmult_assoc, Rinv_l by lra. lra.
Qed.

Lemma trig_w_range : PI / 3 <= w <= PI / 2.
Proof.
  unfold w. pose proof trig_t_range as Ht.
  pose proof (acos_bound t). pose proof (acos_le_PI2 t Ht). lra.
Qed.

Lemma trig_cos_range : 0 <= cos w <= 1 / 2.
Proof.
  pose proof trig_w_range as Hw. pose proof PI_RGT_0.
  split.
  - apply cos_ge_0; lra.
  - rewrite <- cos_PI3. apply cos_decr_1; lra.
Qed.

Lemma trig_root : x ^ 3 - 3 * D * x + 2 * v = 0.
Proof.
  pose proof trig_t_range as Ht. pose proof trig_u_nonzero as Hu.
  pose proof trig_u_sqr as Huu.
  assert (H3w : cos (3 * w) = - t).
  { unfold w. replace (3 * ((PI + acos t) / 3)) with (PI + acos t) by field.
    rewrite Rtrigo_facts.cos_pi_plus, cos_acos by lra. reflexivity. }
  rewrite cos_3a in H3w.
  assert (Ht' : t * (u * u * u) = v).
  { unfold t. simpl. field. exact Hu. }
  unfold x.
  replace ((2 * u * cos w) ^ 3 - 3 * D * (2 * u * cos w) + 2 * v)
    with (2 * (u * u * u) * (4 * cos w ^ 3) - 6 * D * u * cos w + 2 * v) by ring.
  replace (4 * cos w ^ 3) with (- t + 3 * cos w) by lra.
  replace (2 * v) with (2 * (t * (u * u * u))) by (rewrite Ht'; reflexivity).
  rewrite <- Huu. ring.
Qed.

Lemma trig_band : - s <= x <= s.
Proof.
  pose proof trig_cos_range as Hc. pose proof trig_s_pos as Hs.
  unfold x, u. unfold Float.Rsign.
  destruct (Rlt_dec 0 v); [nra|]. destruct (Rlt_dec v 0); nra.
Qed.

End TrigRoot.

(** * The solver on the valid parameter ranges *)

Section ValidRanges.

Variables (n1 n2 : nat) (p1 p2 dl : R).

Hypothesis n1_pos : (0 < n1)%nat.
Hypothesis n2_pos : (0 < n2)%nat.
Hypothesis p1_range : 0 <= p1 <= 1.
Hypothesis p2_range : 0 <= p2 <= 1.
Hypothesis dl_range : -1 < dl < 1.

Lemma theta_pos : 0 < Spec.theta n1 n2.
Proof.
  unfold Spec.theta. apply Rdiv_lt_0_compat; apply lt_0_INR; assumption.
Qed.

Lemma cubic_depressed (p : R) :
  Q (Spec.disc n1 n2 p1 p2 dl) (Spec.v n1 n2 p1 p2 dl)
    (p + Spec.b n1 n2 p1 p2 dl / (3 * Spec.a n1 n2))
  = cubic n1 n2 p1 p2 dl p / Spec.a n1 n2.
Proof.
  pose proof (a_pos n1 n2) as Ha.
  unfold Q, cubic, Spec.disc, Spec.v. field. lra.
Qed.

Lemma cubic_at_0 : cubic n1 n2 p1 p2 dl 0 = - p1 * dl * (1 + dl).
Proof. unfold cubic, Spec.d. ring. Qed.

Lemma cubic_at_delta : cubic n1 n2 p1 p2 dl dl = Spec.theta n1 n2 * p2 * dl * (1 - dl).
Proof. unfold cubic, Spec.a, Spec.b, Spec.c, Spec.d. ring. Qed.

Lemma cubic_at_1 : cubic n1 n2 p1 p2 dl 1 = - dl * (1 - dl) * (1 - p1).
Proof. unfold cubic, Spec.a, Spec.b, Spec.c, Spec.d. ring. Qed.

Lemma cubic_at_1_plus_delta :
  cubic n1 n2 p1 p2 dl (1 + dl) = Spec.theta n1 n2 * (1 - p2) * dl * (1 + dl).
Proof. unfold cubic, Spec.a, Spec.b, Spec.c, Spec.d. ring. Qed.


Lemma bracket_signs :
  lo dl < hi dl
  /\ 0 <= cubic n1 n2 p1 p2 dl (lo dl) /\ cubic n1 n2 p1 p2 dl (hi dl) <= 0.
Proof.
  pose proof theta_pos as Hth. unfold lo, hi.
  destruct (Rle_dec 0 dl) as [Hd|Hd].
  - rewrite Rmax_right, Rmin_left by lra.
    rewrite cubic_at_delta, cubic_at_1.
    remember (Spec.theta n1 n2) as th.
    split; [lra|]. split.
    + repeat apply Rmult_le_pos; lra.
    + assert (0 <= dl * (1 - dl) * (1 - p1)) by (repeat apply Rmult_le_pos; lra).
      lra.
  - rewrite Rmax_left, Rmin_right by lra.
    rewrite cubic_at_0, cubic_at_1_plus_delta.
    remember (Spec.theta n1 n2) as th.
    split; [lra|]. split.
    + assert (0 <= p1 * (- dl) * (1 + dl)) by (repeat apply Rmult_le_pos; lra).
      lra.
    + assert (0 <= th * (1 - p2) * (- dl) * (1 + dl))
        by (repeat apply Rmult_le_pos; lra).
      lra.
Qed.

Lemma solver_bracket :
  exists xL xU, xL < xU
    /\ 0 <= Q (Spec.disc n1 n2 p1 p2 dl) (Spec.v n1 n2 p1 p2 dl) xL
    /\ Q (Spec.disc n1 n2 p1 p2 dl) (Spec.v n1 n2 p1 p2 dl) xU <= 0.
Proof.
  destruct bracket_signs as (Hlt & HL & HU).
  pose proof (a_pos n1 n2) as Ha.
  exists (lo dl + Spec.b n1 n2 p1 p2 dl / (3 * Spec.a n1 n2)),
         (hi dl + Spec.b n1 n2 p1 p2 dl / (3 * Spec.a n1 n2)).
  rewrite !cubic_depressed. split; [lra|]. split.
  - apply Rle_mult_inv_pos; lra.
  - assert (0 <= - cubic n1 n2 p1 p2 dl (hi dl) / Spec.a n1 n2)
      by (apply Rle_mult_inv_pos; lra).
    unfold Rdiv in *. lra.
Qed.

(** The radicand of [u] is strictly positive. *)
Lemma disc_positive : 0 < Spec.disc n1 n2 p1 p2 dl.
Proof. exact (disc_pos _ _ solver_bracket). Qed.

Section NonDegenerate.

Hypothesis v_nonzero : Spec.v n1 n2 p1 p2 dl <> 0.

Lemma u_nonzero : Spec.u n1 n2 p1 p2 dl <> 0.
Proof. apply trig_u_nonzero; [exact disc_positive | exact v_nonzero]. Qed.

Lemma trig_arg_range :
  0 <= Spec.v n1 n2 p1 p2 dl / Spec.u n1 n2 p1 p2 dl ^ 3 <= 1.
Proof.
  apply trig_t_range;
    [exact disc_positive | exact v_nonzero | exact (v_bounds _ _ solver_bracket)].
Qed.

(** The trigonometric root is a probability, and so is its companion. *)
Lemma p1_null_range : lo dl <= Spec.p1_null n1 n2 p1 p2 dl <= hi dl.
Proof.
  destruct bracket_signs as (Hlt & HL & HU).
  pose proof (a_pos n1 n2) as Ha.
  set (h := Spec.b n1 n2 p1 p2 dl / (3 * Spec.a n1 n2)).
  assert (Hx : lo dl + h <= 2 * Spec.u n1 n2 p1 p2 dl * cos (Spec.w n1 n2 p1 p2 dl)
               <= hi dl + h).
  { apply (middle_root_in_bracket (Spec.disc n1 n2 p1 p2 dl) (Spec.v n1 n2 p1 p2 dl)
             solver_bracket).
    - lra.
    - unfold h. rewrite cubic_depressed. apply Rle_mult_inv_pos; lra.
    - unfold h. rewrite cubic_depressed.
      assert (0 <= - cubic n1 n2 p1 p2 dl (hi dl) / Spec.a n1 n2)
        by (apply Rle_mult_inv_pos; lra).
      unfold Rdiv in *. lra.
    - unfold Q. apply trig_root;
        [exact disc_positive | exact v_nonzero | exact (v_bounds _ _ solver_bracket)].
    - apply trig_band;
        [exact disc_positive | exact v_nonzero | exact (v_bounds _ _ solver_bracket)]. }
  unfold Spec.p1_null. fold h. lra.
Qed.

Lemma lo_hi_unit : 0 <= lo dl /\ hi dl <= 1 /\ dl <= lo dl /\ hi dl <= 1 + dl.
Proof.
  unfold lo, hi. repeat split.
  - apply Rmax_l.
  - apply Rmin_l.
  - apply Rmax_r.
  - apply Rmin_r.
Qed.

Lemma variance_nonneg : 0 <= Spec.variance n1 n2 p1 p2 dl.
Proof.
  pose proof p1_null_range as Hp. pose proof lo_hi_unit as (H0 & H1 & H2 & H3).
  unfold Spec.variance, Spec.p2_null.
  set (q := Spec.p1_null n1 n2 p1 p2 dl) in *.
  apply Rplus_le_le_0_compat; apply Rle_mult_inv_pos;
    try (apply lt_0_INR; assumption); nra.
Qed.

(** On the valid ranges, away from [v = 0], the solver returns the value
    of the formulas. *)
Lemma solver_valid :
  _get_sd_diff_ML_null n1 n2 (Fin p1) (Fin p2) (Fin dl)
  = Ok (Fin (Spec.sd_null n1 n2 p1 p2 dl)).
Proof.
  pose proof trig_arg_range.
  apply solver_defined; try assumption.
  - left. exact disc_positive.
  - exact u_nonzero.
  - lra.
  - exact variance_nonneg.
Qed.

End NonDegenerate.

End ValidRanges.

(** * The entry point: argument check *)

Lemma str_in_In (s : string) (l : list string) : str_in s l = true <-> In s l.
Proof.
  induction l as [|x l IH]; simpl.
  - split; [discriminate | contradiction].
  - destruct (String.eqb_spec s x) as [->|Hne].
    + split; auto.
    + rewrite IH. split; [auto | intros [H|H]; [congruence | assumption]].
Qed.


Example casefold_GREATER : casefold "GREATER" = "greater"%string.
Proof. reflexivity. Qed.

Example casefold_Two_Sided : casefold "Two-Sided" = "two-sided"%string.
Proof. reflexivity. Qed.



(** Once the alternative is recognised, the function is the rest of its
    body. *)
Lemma farrington_manning_good_alternative
    (sf cdf : fval -> fval) (brentq : (fval -> fval) -> fval -> fval -> result fval)
    (g1 g2 : list bool) (delta alpha : fval) (alt : string) :
  In (casefold alt) alternatives ->
  farrington_manning sf cdf brentq g1 g2 delta alt alpha
  = (let diff_ml := (np_mean g1 - np_mean g2)%fl in
     sd <- _get_sd_diff_ML_null (List.length g1) (List.length g2)
             (np_mean g1) (np_mean g2) delta ;;
     let z := _get_z diff_ml delta sd in
     let alpha_mod :=
       if String.eqb (casefold alt) "two-sided" then alpha else (#2 * alpha)%fl in
     ci_lower <- brentq (fun x => _get_ci sf cdf x diff_ml sd alpha_mod)
                   (Fin (-1 + 1 / 1000000)) diff_ml ;;
     ci_upper <- brentq (fun x => _get_ci sf cdf x diff_ml sd alpha_mod)
                   diff_ml (Fin (1 - 1 / 1000000)) ;;
     Ok {| rate_difference := diff_ml;
           z_statistic := z;
           p_value :=
             if String.eqb (casefold alt) "two-sided"
             then (#2 * Float.min (sf z) (cdf z))%fl
             else if String.eqb (casefold alt) "greater" then sf z else cdf z;
           ci := (ci_lower, ci_upper) |}).
Proof.
  intros H. apply str_in_In in H. unfold farrington_manning.
  fold alternatives. rewrite H. reflexivity.
Qed.

(** * A zero margin: the pooled proportion *)

Section ZeroMargin.

Variables (n1 n2 : nat) (p1 p2 : R).

Hypothesis n1_pos : (0 < n1)%nat.
Hypothesis n2_pos : (0 < n2)%nat.
Hypothesis p1_range : 0 <= p1 <= 1.
Hypothesis p2_range : 0 <= p2 <= 1.
Hypothesis v_nonzero : Spec.v n1 n2 p1 p2 0 <> 0.

Lemma cubic_zero_margin (p : R) :
  cubic n1 n2 p1 p2 0 p
  = p * (p - 1) * (Spec.a n1 n2 * p - (p1 + Spec.theta n1 n2 * p2)).
Proof. unfold cubic, Spec.a, Spec.b, Spec.c, Spec.d. ring. Qed.

(** With [delta = 0] the restricted estimate of both rates is the
    pooled n1 n2 p1 p2 proportion. *)
Lemma p1_null_pooled : Spec.p1_null n1 n2 p1 p2 0 = pooled n1 n2 p1 p2.
Proof.
  assert (Hd : -1 < 0 < 1) by lra.
  pose proof (theta_pos n1 n2 n1_pos n2_pos) as Hth.
  pose proof (a_pos n1 n2) as Ha.
  pose proof (solver_bracket n1 n2 p1 p2 0 n1_pos n2_pos p1_range p2_range Hd) as Hbr.
  pose proof (disc_positive n1 n2 p1 p2 0 n1_pos n2_pos p1_range p2_range Hd) as HD.
  pose proof (v_bounds _ _ Hbr) as Hv.
  pose proof (trig_root _ _ HD v_nonzero Hv) as Hroot.
  pose proof (trig_band _ _ HD v_nonzero Hv) as Hband.
  set (x := 2 * (Float.Rsign (Spec.v n1 n2 p1 p2 0) * sqrt (Spec.disc n1 n2 p1 p2 0))
            * cos ((PI + acos (Spec.v n1 n2 p1 p2 0
                               / (Float.Rsign (Spec.v n1 n2 p1 p2 0)
                                  * sqrt (Spec.disc n1 n2 p1 p2 0)) ^ 3)) / 3)) in *.
  set (h := Spec.b n1 n2 p1 p2 0 / (3 * Spec.a n1 n2)).
  set (m := p1 + Spec.theta n1 n2 * p2).
  assert (Hp : Spec.p1_null n1 n2 p1 p2 0 = x - h) by reflexivity.
  assert (Hs : sqrt (Spec.disc n1 n2 p1 p2 0) * sqrt (Spec.disc n1 n2 p1 p2 0)
               = Spec.disc n1 n2 p1 p2 0) by (apply sqrt_sqrt; lra).
  assert (Hx2 : x * x <= Spec.disc n1 n2 p1 p2 0).
  { rewrite <- Hs. pose proof (sqrt_pos (Spec.disc n1 n2 p1 p2 0)). nra. }
  assert (Hcub : cubic n1 n2 p1 p2 0 (x - h) = 0).
  { pose proof (cubic_depressed n1 n2 p1 p2 0 (x - h)) as E.
    fold h in E. replace (x - h + h) with x in E by ring.
    unfold Q in E. rewrite Hroot in E.
    assert (E' : cubic n1 n2 p1 p2 0 (x - h)
                 = cubic n1 n2 p1 p2 0 (x - h) / Spec.a n1 n2 * Spec.a n1 n2)
      by (field; lra).
    rewrite <- E in E'. lra. }
  rewrite cubic_zero_margin in Hcub. fold m in Hcub.
  assert (Hm : 0 <= m <= Spec.a n1 n2).
  { unfold m, Spec.a. split; nra. }
  assert (Hh : h = - (Spec.a n1 n2 + m) / (3 * Spec.a n1 n2)).
  { unfold h, m, Spec.b, Spec.a. field. fold (Spec.a n1 n2). lra. }
  assert (HDm : Spec.disc n1 n2 p1 p2 0
                = (Spec.a n1 n2 * Spec.a n1 n2 - Spec.a n1 n2 * m + m * m)
                  / (9 * (Spec.a n1 n2 * Spec.a n1 n2))).
  { unfold Spec.disc, m, Spec.b, Spec.c, Spec.a. field. fold (Spec.a n1 n2). lra. }
  rewrite Hp. unfold pooled. fold m. fold (Spec.a n1 n2).
  set (A := Spec.a n1 n2) in *.
  assert (HA2 : 0 < 9 * (A * A)) by nra.
  assert (Hx2' : x * x * (9 * (A * A)) <= A * A - A * m + m * m).
  { rewrite HDm in Hx2.
    assert (E9 : (A * A - A * m + m * m) / (9 * (A * A)) * (9 * (A * A))
                 = A * A - A * m + m * m) by (field; lra).
    apply (Rmult_le_compat_r (9 * (A * A))) in Hx2; [|lra].
    rewrite E9 in Hx2. exact Hx2. }
  assert (Hh3 : h * (3 * A) = - (A + m)).
  { rewrite Hh. field. lra. }
  apply Rmult_integral in Hcub. destruct Hcub as [Hcub|Hcub].
  - apply Rmult_integral in Hcub. destruct Hcub as [H0|H1].
    + (* candidate root 0: only possible when the pooled n1 n2 p1 p2 proportion is 0 *)
      assert (Hxh : x = h) by lra.
      assert (Hm0 : m = 0).
      { rewrite Hxh in Hx2'.
        replace (h * h * (9 * (A * A))) with ((h * (3 * A)) * (h * (3 * A))) in Hx2' by ring.
        rewrite Hh3 in Hx2'. nra. }
      rewrite H0, Hm0. field. lra.
    + (* candidate root 1: only possible when the pooled n1 n2 p1 p2 proportion is 1 *)
      assert (Hxh : x = 1 + h) by lra.
      assert (HmA : m = A).
      { rewrite Hxh in Hx2'.
        replace ((1 + h) * (1 + h) * (9 * (A * A)))
          with ((3 * A + h * (3 * A)) * (3 * A + h * (3 * A))) in Hx2' by ring.
        rewrite Hh3 in Hx2'. nra. }
      assert (Hone : x - h = 1) by lra. rewrite Hone, HmA. field. lra.
  - apply (Rmult_eq_reg_l A); [|lra].
    replace (A * (m / A)) with m by (field; lra). lra.
Qed.

End ZeroMargin.

(** * Running the test with the stand-in collaborators *)

Lemma np_mean_nonempty (g : list bool) :
  g <> [] ->
  np_mean g = Fin (INR (list_sum (map int_of_bool g)) / INR (List.length g)).
Proof.
  intros Hg. unfold np_mean, Float.of_int. apply div_fin.
  destruct g as [|x g]; [contradiction|]. apply Rgt_not_eq, INR_S_pos.
Qed.

Lemma stub_two_sided (r : R) :
  exists y, (#2 * Float.min (sf_stub (Fin r)) (cdf_stub (Fin r)))%fl = Fin y
            /\ y = 1 / (1 + 100 * Rabs r).
Proof.
  assert (Hpos : 0 < 1 + 100 * Rabs r) by (pose proof (Rabs_pos r); lra).
  unfold Float.min, sf_stub, cdf_stub, Float.neg, Float.ltb.
  rewrite Rabs_Ropp.
  destruct (Rlt_dec _ _) as [Hlt|Hge]; cbn [Float.mul]; eexists; split;
    try reflexivity.
  - (* cdf < sf: r is negative *)
    assert (Hr : r < 0).
    { destruct (Rlt_dec r 0) as [|Hn]; [assumption|exfalso].
      assert (0 <= 100 * r / (2 * (1 + 100 * Rabs r))).
      { apply Rle_mult_inv_pos; lra. }
      assert (100 * - r / (2 * (1 + 100 * Rabs r))
              = - (100 * r / (2 * (1 + 100 * Rabs r)))) by (field; lra).
      lra. }
    rewrite Rabs_left in * by assumption. field. lra.
  - assert (Hr : 0 <= r).
    { destruct (Rle_dec 0 r) as [|Hn]; [assumption|exfalso]. apply Hge.
      assert (0 < 100 * - r / (2 * (1 + 100 * Rabs r))).
      { apply Rdiv_lt_0_compat; lra. }
      assert (100 * - r / (2 * (1 + 100 * Rabs r))
              = - (100 * r / (2 * (1 + 100 * Rabs r)))) by (field; lra).
      lra. }
    rewrite Rabs_pos_eq in * by assumption. field. lra.
Qed.

Lemma get_ci_stub (x diff sd alpha : R) :
  sd <> 0 ->
  exists y, _get_ci sf_stub cdf_stub (Fin x) (Fin diff) (Fin sd) (Fin alpha) = Fin y
            /\ y = 1 / (1 + 100 * Rabs ((diff - x) / sd)) - alpha.
Proof.
  intros Hsd. unfold _get_ci, _get_z. cbn [Float.sub Float.neg Float.add].
  rewrite div_fin by assumption.
  destruct (stub_two_sided ((diff + - x) / sd)) as (y & Hy & Ey).
  rewrite Hy. cbn [Float.add Float.neg]. eexists. split; [reflexivity|].
  rewrite Ey. reflexivity.
Qed.

Lemma brentq_stub_root (f : fval -> fval) (a b fa fb : R) :
  f (Fin a) = Fin fa -> f (Fin b) = Fin fb -> fa * fb <= 0 ->
  brentq_stub f (Fin a) (Fin b) = Ok (Fin ((a + b) / 2)).
Proof.
  intros Ha Hb Hs. unfold brentq_stub. rewrite Ha, Hb.
  cbn [Float.mul Float.ltb Float.add].
  destruct (Rlt_dec 0 (fa * fb)); [lra|].
  rewrite div_fin by lra. reflexivity.
Qed.

Lemma brentq_stub_same_sign (f : fval -> fval) (a b fa fb : R) :
  f (Fin a) = Fin fa -> f (Fin b) = Fin fb -> 0 < fa * fb ->
  brentq_stub f (Fin a) (Fin b) = Raise sign_error.
Proof.
  intros Ha Hb Hs. unfold brentq_stub. rewrite Ha, Hb.
  cbn [Float.mul Float.ltb].
  destruct (Rlt_dec 0 (fa * fb)); [reflexivity | lra].
Qed.

(** The stand-in target far from the estimate, and at the estimate. *)
Lemma stub_target_far (d sd c alpha : R) :
  0 < sd <= 1 -> 0 < c <= Rabs d -> 1 / (1 + 100 * c) < alpha ->
  1 / (1 + 100 * Rabs (d / sd)) - alpha < 0.
Proof.
  intros Hsd Hc Ha.
  assert (Hz : c <= Rabs (d / sd)).
  { unfold Rdiv. rewrite Rabs_mult, (Rabs_pos_eq (/ sd)).
    - assert (1 <= / sd).
      { rewrite <- Rinv_1. apply Rinv_le_contravar; lra. }
      pose proof (Rabs_pos d). nra.
    - left. apply Rinv_0_lt_compat. lra. }
  assert (1 / (1 + 100 * Rabs (d / sd)) <= 1 / (1 + 100 * c)).
  { unfold Rdiv. rewrite !Rmult_1_l. apply Rinv_le_contravar; lra. }
  lra.
Qed.

Lemma stub_target_near (sd alpha : R) :
  1 / (1 + 100 * Rabs (0 / sd)) - alpha = 1 - alpha.
Proof.
  unfold Rdiv. rewrite Rmult_0_l, Rabs_R0. field.
Qed.

(** A complete run with the stand-in collaborators: when the target
    changes sign on both brackets, both midpoints are returned. *)
Lemma stub_run_ok (g1 g2 : list bool) (delta : fval) (alt : string)
    (alpha diff sd : R) :
  In (casefold alt) alternatives ->
  (np_mean g1 - np_mean g2)%fl = Fin diff ->
  _get_sd_diff_ML_null (List.length g1) (List.length g2)
    (np_mean g1) (np_mean g2) delta = Ok (Fin sd) ->
  0 < sd <= 1 ->
  alpha_mod_of alt alpha <= 1 ->
  0 < Rabs (diff - (-1 + 1 / 1000000)) ->
  1 / (1 + 100 * Rabs (diff - (-1 + 1 / 1000000))) < alpha_mod_of alt alpha ->
  0 < Rabs (diff - (1 - 1 / 1000000)) ->
  1 / (1 + 100 * Rabs (diff - (1 - 1 / 1000000))) < alpha_mod_of alt alpha ->
  exists r,
    farrington_manning sf_stub cdf_stub brentq_stub g1 g2 delta alt (Fin alpha) = Ok r
    /\ rate_difference r = Fin diff
    /\ z_statistic r = _get_z (Fin diff) delta (Fin sd)
    /\ ci r = (Fin ((-1 + 1 / 1000000 + diff) / 2),
               Fin ((diff + (1 - 1 / 1000000)) / 2)).
Proof.
  intros Halt Hdiff Hsolve Hsd Ham Hlo0 Hlo Hhi0 Hhi.
  rewrite farrington_manning_good_alternative by assumption.
  cbv zeta. rewrite Hsolve, Hdiff. cbn [bind].
  assert (Hmod : (if String.eqb (casefold alt) "two-sided" then Fin alpha
                  else (#2 * Fin alpha)%fl) = Fin (alpha_mod_of alt alpha)).
  { unfold alpha_mod_of. destruct (String.eqb _ _); reflexivity. }
  rewrite Hmod. set (am := alpha_mod_of alt alpha) in *.
  assert (Hsd0 : sd <> 0) by lra.
  destruct (get_ci_stub (-1 + 1 / 1000000) diff sd am Hsd0) as (ya & Hya & Eya).
  destruct (get_ci_stub diff diff sd am Hsd0) as (yd & Hyd & Eyd).
  destruct (get_ci_stub (1 - 1 / 1000000) diff sd am Hsd0) as (yb & Hyb & Eyb).
  assert (Hyd' : 0 <= yd).
  { rewrite Eyd. replace (diff - diff) with 0 by ring.
    rewrite stub_target_near. lra. }
  assert (Hya' : ya < 0).
  { rewrite Eya. apply (stub_target_far _ _ (Rabs (diff - (-1 + 1 / 1000000)))); lra. }
  assert (Hyb' : yb < 0).
  { rewrite Eyb. apply (stub_target_far _ _ (Rabs (diff - (1 - 1 / 1000000)))); lra. }
  rewrite (brentq_stub_root
             (fun x => _get_ci sf_stub cdf_stub x (Fin diff) (Fin sd) (Fin am))
             _ _ ya yd Hya Hyd) by nra.
  cbn [bind].
  rewrite (brentq_stub_root
             (fun x => _get_ci sf_stub cdf_stub x (Fin diff) (Fin sd) (Fin am))
             _ _ yd yb Hyd Hyb) by nra.
  cbn [bind].
  eexists. split; [reflexivity|]. cbn. repeat split.
Qed.

Lemma inv_bound (c a : R) : 0 < c -> 1 < a * (1 + 100 * c) -> 1 / (1 + 100 * c) < a.
Proof.
  intros Hc Ha.
  apply (Rmult_lt_reg_r (1 + 100 * c)); [lra|].
  unfold Rdiv. rewrite Rmult_1_l, Rinv_l by lra. lra.
Qed.

(** The run of [stub_run_ok] when the estimate is well inside the
    brackets and the level is not too small. *)
Lemma stub_run_interior (g1 g2 : list bool) (delta : fval) (alt : string)
    (alpha diff sd : R) :
  In (casefold alt) alternatives ->
  (np_mean g1 - np_mean g2)%fl = Fin diff ->
  _get_sd_diff_ML_null (List.length g1) (List.length g2)
    (np_mean g1) (np_mean g2) delta = Ok (Fin sd) ->
  0 < sd <= 1 ->
  - (1 / 2) <= diff <= 1 / 2 ->
  1 / 20 <= alpha_mod_of alt alpha <= 1 ->
  exists r,
    farrington_manning sf_stub cdf_stub brentq_stub g1 g2 delta alt (Fin alpha) = Ok r
    /\ rate_difference r = Fin diff
    /\ z_statistic r = _get_z (Fin diff) delta (Fin sd)
    /\ ci r = (Fin ((-1 + 1 / 1000000 + diff) / 2),
               Fin ((diff + (1 - 1 / 1000000)) / 2)).
Proof.
  intros Halt Hdiff Hsolve Hsd Hd Ha.
  apply stub_run_ok; try assumption; try lra.
  - rewrite Rabs_pos_eq; lra.
  - rewrite Rabs_pos_eq by lra. apply inv_bound; [lra | nra].
  - rewrite Rabs_left; lra.
  - rewrite Rabs_left by lra. apply inv_bound; [lra | nra].
Qed.

(** The solver with a zero margin, on data. *)
Lemma solver_zero_margin (n1 n2 : nat) (p1 p2 : R) :
  (0 < n1)%nat -> (0 < n2)%nat -> 0 <= p1 <= 1 -> 0 <= p2 <= 1 ->
  Spec.v n1 n2 p1 p2 0 <> 0 ->
  _get_sd_diff_ML_null n1 n2 (Fin p1) (Fin p2) (Fin 0)
  = Ok (Fin (sqrt (pooled n1 n2 p1 p2 * (1 - pooled n1 n2 p1 p2) / INR n1
                   + pooled n1 n2 p1 p2 * (1 - pooled n1 n2 p1 p2) / INR n2))).
Proof.
  intros H1 H2 Hp1 Hp2 Hv.
  rewrite solver_valid by (try assumption; lra).
  unfold Spec.sd_null, Spec.variance, Spec.p2_null.
  rewrite (p1_null_pooled n1 n2 p1 p2 H1 H2 Hp1 Hp2 Hv).
  rewrite Rminus_0_r. reflexivity.
Qed.

(** ** Three small data sets *)

(** One success in two against none in two: an interior difference. *)
Lemma example_interior :
  (np_mean [true; false] - np_mean [false; false])%fl = Fin (1 / 2)
  /\ exists sd, 0 < sd <= 1
     /\ _get_sd_diff_ML_null 2 2 (np_mean [true; false]) (np_mean [false; false])
          (Fin 0) = Ok (Fin sd).
Proof.
  rewrite !np_mean_nonempty by discriminate.
  cbn [map int_of_bool List.length].
  change (list_sum [1%nat; 0%nat]) with 1%nat.
  change (list_sum [0%nat; 0%nat]) with 0%nat.
  replace (INR 1 / INR 2) with (1 / 2) by (simpl; field).
  replace (INR 0 / INR 2) with 0 by (simpl; field).
  split.
  - cbn [Float.sub Float.neg Float.add]. f_equal. lra.
  - assert (Hv : Spec.v 2 2 (1 / 2) 0 0 = - 35 / 1728).
    { unfold Spec.v, Spec.b, Spec.c, Spec.d, Spec.a, Spec.theta. simpl. field. }
    assert (Hp : pooled 2 2 (1 / 2) 0 = 1 / 4).
    { unfold pooled, Spec.theta. simpl. field. }
    eexists. split; [|apply solver_zero_margin; try lia; lra].
    rewrite Hp. replace (1 / 4 * (1 - 1 / 4) / INR 2 + 1 / 4 * (1 - 1 / 4) / INR 2)
      with (3 / 16) by (simpl; field).
    split.
    + apply sqrt_lt_R0. lra.
    + rewrite <- sqrt_1. apply sqrt_le_1; lra.
Qed.

(** One success in one against none in two: the difference is 1. *)
Lemma example_all_vs_none :
  (np_mean [true] - np_mean [false; false])%fl = Fin 1
  /\ exists sd, 1 / 2 <= sd <= 1
     /\ _get_sd_diff_ML_null 1 2 (np_mean [true]) (np_mean [false; false])
          (Fin 0) = Ok (Fin sd).
Proof.
  rewrite !np_mean_nonempty by discriminate.
  cbn [map int_of_bool List.length].
  change (list_sum [1%nat]) with 1%nat.
  change (list_sum [0%nat; 0%nat]) with 0%nat.
  replace (INR 1 / INR 1) with 1 by (simpl; field).
  replace (INR 0 / INR 2) with 0 by (simpl; field).
  split.
  - cbn [Float.sub Float.neg Float.add]. f_equal. lra.
  - assert (Hv : Spec.v 1 2 1 0 0 = - 10 / 729).
    { unfold Spec.v, Spec.b, Spec.c, Spec.d, Spec.a, Spec.theta. simpl. field. }
    assert (Hp : pooled 1 2 1 0 = 1 / 3).
    { unfold pooled, Spec.theta. simpl. field. }
    eexists. split; [|apply solver_zero_margin; try lia; lra].
    rewrite Hp. replace (1 / 3 * (1 - 1 / 3) / INR 1 + 1 / 3 * (1 - 1 / 3) / INR 2)
      with (1 / 3) by (simpl; field).
    split.
    + replace (1 / 2) with (sqrt (1 / 4)).
      * apply sqrt_le_1; lra.
      * replace (1 / 4) with ((1 / 2) * (1 / 2)) by field. apply sqrt_square. lra.
    + apply Rle_trans with (sqrt 1); [apply sqrt_le_1; lra | rewrite sqrt_1; lra].
Qed.

(** None in two against one success in one: the difference is -1. *)
Lemma example_none_vs_all :
  (np_mean [false; false] - np_mean [true])%fl = Fin (-1)
  /\ exists sd, 1 / 2 <= sd <= 1
     /\ _get_sd_diff_ML_null 2 1 (np_mean [false; false]) (np_mean [true])
          (Fin 0) = Ok (Fin sd).
Proof.
  rewrite !np_mean_nonempty by discriminate.
  cbn [map int_of_bool List.length].
  change (list_sum [1%nat]) with 1%nat.
  change (list_sum [0%nat; 0%nat]) with 0%nat.
  replace (INR 1 / INR 1) with 1 by (simpl; field).
  replace (INR 0 / INR 2) with 0 by (simpl; field).
  split.
  - cbn [Float.sub Float.neg Float.add]. f_equal. lra.
  - assert (Hv : Spec.v 2 1 0 1 0 = - 10 / 729).
    { unfold Spec.v, Spec.b, Spec.c, Spec.d, Spec.a, Spec.theta. simpl. field. }
    assert (Hp : pooled 2 1 0 1 = 1 / 3).
    { unfold pooled, Spec.theta. simpl. field. }
    eexists. split; [|apply solver_zero_margin; try lia; lra].
    rewrite Hp. replace (1 / 3 * (1 - 1 / 3) / INR 2 + 1 / 3 * (1 - 1 / 3) / INR 1)
      with (1 / 3) by (simpl; field).
    split.
    + replace (1 / 2) with (sqrt (1 / 4)).
      * apply sqrt_le_1; lra.
      * replace (1 / 4) with ((1 / 2) * (1 / 2)) by field. apply sqrt_square. lra.
    + apply Rle_trans with (sqrt 1); [apply sqrt_le_1; lra | rewrite sqrt_1; lra].
Qed.

(** The stand-in target close to the estimate is positive. *)
Lemma stub_target_close (d sd alpha : R) :
  1 / 2 <= sd -> Rabs d <= 1 / 1000000 -> alpha <= 1 / 2 ->
  0 < 1 / (1 + 100 * Rabs (d / sd)) - alpha.
Proof.
  intros Hsd Hd Ha.
  assert (Hz : Rabs (d / sd) <= 2 / 1000000).
  { unfold Rdiv at 1. rewrite Rabs_mult, (Rabs_pos_eq (/ sd)).
    - assert (/ sd <= 2).
      { replace 2 with (/ (1 / 2)) by field. apply Rinv_le_contravar; lra. }
      assert (0 < / sd) by (apply Rinv_0_lt_compat; lra).
      pose proof (Rabs_pos d). nra.
    - left. apply Rinv_0_lt_compat. lra. }
  pose proof (Rabs_pos (d / sd)).
  assert (1 / (1 + 100 * (2 / 1000000)) <= 1 / (1 + 100 * Rabs (d / sd))).
  { unfold Rdiv at 1 3. rewrite !Rmult_1_l. apply Rinv_le_contravar; lra. }
  assert (9 / 10 < 1 / (1 + 100 * (2 / 1000000))).
  { apply (Rmult_lt_reg_r (1 + 100 * (2 / 1000000))); [lra|].
    unfold Rdiv at 3. rewrite Rmult_1_l, Rinv_l by lra. lra. }
  lra.
Qed.

(** * The argument check and the reported statistic *)



(** C7. In a returned result the statistic is
    [(diff_ml - delta) / sd_null], with [sd_null] the solver's value at
    the given margin, and the p-value is [2 * min(sf z, cdf z)] for
    "two-sided", [sf z] for "greater" and [cdf z] for "less". *)
Theorem statistic_and_p_value
    (sf cdf : fval -> fval) (brentq : (fval -> fval) -> fval -> fval -> result fval)
    (g1 g2 : list bool) (delta alpha : fval) (alt : string) (r : TestResult) :
  farrington_manning sf cdf brentq g1 g2 delta alt alpha = Ok r ->
  exists sd_null,
    _get_sd_diff_ML_null (List.length g1) (List.length g2)
      (np_mean g1) (np_mean g2) delta = Ok sd_null
    /\ rate_difference r = (np_mean g1 - np_mean g2)%fl
    /\ z_statistic r = ((np_mean g1 - np_mean g2 - delta) / sd_null)%fl
    /\ In (casefold alt) alternatives
    /\ (casefold alt = "two-sided"%string ->
        p_value r = (#2 * Float.min (sf (z_statistic r)) (cdf (z_statistic r)))%fl)
    /\ (casefold alt = "greater"%string -> p_value r = sf (z_statistic r))
    /\ (casefold alt = "less"%string -> p_value r = cdf (z_statistic r)).
Proof.
  intros Hrun.
  destruct (str_in (casefold alt) alternatives) eqn:Hin.
  - apply str_in_In in Hin.
    rewrite farrington_manning_good_alternative in Hrun by assumption.
    cbv zeta in Hrun.
    apply bind_ok in Hrun. destruct Hrun as (sd & Hsd & Hrun).
    apply bind_ok in Hrun. destruct Hrun as (lo_ & Hlo & Hrun).
    apply bind_ok in Hrun. destruct Hrun as (hi_ & Hhi & Hrun).
    injection Hrun as <-. cbn [rate_difference z_statistic p_value].
    exists sd. repeat split; try assumption.
    + intros ->. reflexivity.
    + intros ->. reflexivity.
    + intros ->. reflexivity.
  - unfold farrington_manning in Hrun. fold alternatives in Hrun.
    rewrite Hin in Hrun. discriminate Hrun.
Qed.

Lemma statistic_and_p_value_witness :
  exists r,
    farrington_manning sf_stub cdf_stub brentq_stub [true; false] [false; false]
      (Fin 0) "Greater" (Fin (1 / 20)) = Ok r
    /\ p_value r = sf_stub (z_statistic r).
Proof.
  destruct example_interior as (Hdiff & sd & Hsd & Hsolve).
  destruct (stub_run_interior [true; false] [false; false] (Fin 0) "Greater"
              (1 / 20) (1 / 2) sd) as (r & Hr & _);
    try assumption; try (simpl; auto; fail); try lra.
  { unfold alpha_mod_of. simpl. lra. }
  exists r. split; [exact Hr|].
  destruct (statistic_and_p_value _ _ _ _ _ _ _ _ _ Hr)
    as (sd' & _ & _ & _ & _ & _ & Hg & _).
  apply Hg. reflexivity.
Defined.

(** * The solver: domain errors, a zero [v], and the formulas *)

















(** * Empty groups *)






(** * Swapping the groups *)




Section Swap.

Variables (n1 n2 : nat) (p1 p2 dl : R).

Hypothesis n1_pos : (0 < n1)%nat.
Hypothesis n2_pos : (0 < n2)%nat.







End Swap.

Lemma neg_involutive (x : fval) : (- - x)%fl = x.
Proof. destruct x; simpl; try reflexivity. f_equal. ring. Qed.


Lemma neg_div (x y : fval) : (- x / y)%fl = (- (x / y))%fl.
Proof.
  destruct x as [a| | |], y as [b| | |]; simpl; try reflexivity.
  - destruct (Req_dec_T b 0).
    + decide_reals; reflexivity.
    + simpl. f_equal. field. assumption.
  - f_equal. ring.
  - f_equal. ring.
  - decide_reals; reflexivity.
  - decide_reals; reflexivity.
Qed.

(** A margin that is not finite makes the radicand of [u] NaN, and the
    solver returns NaN. *)
Lemma solver_nonfinite_delta (k n2 : nat) (p1 p2 : R) (delta : fval) :
  0 <= p1 -> (forall d, delta <> Fin d) ->
  _get_sd_diff_ML_null (S k) n2 (Fin p1) (Fin p2) delta = Ok NaN.
Proof.
  intros Hp1 Hd.
  pose proof (theta_nonneg (S k) n2) as Hth. unfold Spec.theta in Hth.
  unfold _get_sd_diff_ML_null. cbn [Float.int_truediv bind].
  set (th := INR n2 / INR (S k)) in *.
  assert (Ha3 : 3 * (1 + th) <> 0) by lra.
  assert (Ha9 : 9 * ((1 + th) * ((1 + th) * 1)) <> 0) by nra.
  assert (Hrad : (((- (#1 + #th + #p1 + #th * #p2 + delta * (#th + #2))) ^ 2
                   / (#9 * (#1 + #th) ^ 2)
                   - (delta ^ 2 + delta * (#2 * #p1 + #th + #1) + #p1 + #th * #p2)
                     / (#3 * (#1 + #th)))%fl) = NaN).
  { destruct delta as [d| | |]; [exfalso; apply (Hd d); reflexivity | | |].
    - repeat first [progress unfold Float.scale_inf | progress simpl | progress decide_reals];
        reflexivity.
    - repeat first [progress unfold Float.scale_inf | progress simpl | progress decide_reals];
        reflexivity.
    - simpl. reflexivity. }
  cbv zeta. rewrite Hrad. cbn [Float.sqrt bind].
  assert (Hm : forall x : fval, (x * NaN)%fl = NaN) by (intros x; destruct x; reflexivity).
  assert (Hdv : forall x : fval, (x / NaN)%fl = NaN) by (intros x; destruct x; reflexivity).
  rewrite Hm. cbn [Float.pow Float.mul]. rewrite Hdv.
  cbn [Float.acos bind pi Float.add Float.div Float.cos].
  rewrite !Hm. cbn [Float.sub Float.add Float.mul Float.div Float.neg].
  reflexivity.
Qed.

(** What a successful call went through. *)
Lemma farrington_manning_ok_inv
    (sf cdf : fval -> fval) (brentq : (fval -> fval) -> fval -> fval -> result fval)
    (g1 g2 : list bool) (delta alpha : fval) (alt : string) (r : TestResult) :
  farrington_manning sf cdf brentq g1 g2 delta alt alpha = Ok r ->
  In (casefold alt) alternatives
  /\ exists sd ci_lower ci_upper,
       let diff_ml := (np_mean g1 - np_mean g2)%fl in
       let alpha_mod :=
         if String.eqb (casefold alt) "two-sided" then alpha else (#2 * alpha)%fl in
       _get_sd_diff_ML_null (List.length g1) (List.length g2)
         (np_mean g1) (np_mean g2) delta = Ok sd
       /\ brentq (fun x => _get_ci sf cdf x diff_ml sd alpha_mod)
            (Fin (-1 + 1 / 1000000)) diff_ml = Ok ci_lower
       /\ brentq (fun x => _get_ci sf cdf x diff_ml sd alpha_mod)
            diff_ml (Fin (1 - 1 / 1000000)) = Ok ci_upper
       /\ rate_difference r = diff_ml
       /\ z_statistic r = _get_z diff_ml delta sd
       /\ p_value r =
            (if String.eqb (casefold alt) "two-sided"
             then (#2 * Float.min (sf (_get_z diff_ml delta sd))
                                  (cdf (_get_z diff_ml delta sd)))%fl
             else if String.eqb (casefold alt) "greater"
                  then sf (_get_z diff_ml delta sd)
                  else cdf (_get_z diff_ml delta sd))
       /\ ci r = (ci_lower, ci_upper).
Proof.
  intros Hrun.
  destruct (str_in (casefold alt) alternatives) eqn:Hin.
  - apply str_in_In in Hin. split; [exact Hin|].
    rewrite farrington_manning_good_alternative in Hrun by assumption.
    cbv zeta in Hrun.
    apply bind_ok in Hrun. destruct Hrun as (sd & Hsd & Hrun).
    apply bind_ok in Hrun. destruct Hrun as (lo_ & Hlo & Hrun).
    apply bind_ok in Hrun. destruct Hrun as (hi_ & Hhi & Hrun).
    injection Hrun as <-. exists sd, lo_, hi_. cbv zeta.
    cbn [rate_difference z_statistic p_value ci]. repeat split; assumption.
  - unfold farrington_manning in Hrun. fold alternatives in Hrun.
    rewrite Hin in Hrun. discriminate Hrun.
Qed.

Lemma min_comm_fin (p q : R) : Float.min (Fin p) (Fin q) = Float.min (Fin q) (Fin p).
Proof.
  unfold Float.min, Float.ltb.
  destruct (Rlt_dec q p), (Rlt_dec p q); try reflexivity; try lra.
  f_equal. lra.
Qed.



Lemma stub_sf_cdf (z : fval) : sf_stub z = cdf_stub (- z)%fl.
Proof. reflexivity. Qed.

Lemma stub_cdf_number (z : fval) : z <> NaN -> exists p, cdf_stub z = Fin p.
Proof.
  destruct z; simpl; intros H; eauto. contradiction.
Qed.


(** * The root search *)

Lemma same_sign_fin (x y : R) : 0 < x * y -> same_sign (Fin x) (Fin y).
Proof.
  intros H. unfold same_sign. simpl. destruct (Rlt_dec 0 (x * y)); [reflexivity | lra].
Qed.

Lemma brentq_stub_sign_check (f : fval -> fval) (a b : fval) :
  same_sign (f a) (f b) -> brentq_stub f a b = Raise sign_error.
Proof.
  unfold same_sign, brentq_stub. intros ->. reflexivity.
Qed.

(** The stand-in target on the three bracket ends when the estimate is 1. *)
Lemma stub_target_at_one (sd am : R) :
  1 / 2 <= sd <= 1 -> 1 / 20 <= am <= 1 / 2 ->
  exists ya yd yb,
    _get_ci sf_stub cdf_stub (Fin (-1 + 1 / 1000000)) (Fin 1) (Fin sd) (Fin am) = Fin ya
    /\ _get_ci sf_stub cdf_stub (Fin 1) (Fin 1) (Fin sd) (Fin am) = Fin yd
    /\ _get_ci sf_stub cdf_stub (Fin (1 - 1 / 1000000)) (Fin 1) (Fin sd) (Fin am) = Fin yb
    /\ ya < 0 /\ 0 < yd /\ 0 < yb.
Proof.
  intros Hsd Ha. assert (Hsd0 : sd <> 0) by lra.
  destruct (get_ci_stub (-1 + 1 / 1000000) 1 sd am Hsd0) as (ya & Hya & Eya).
  destruct (get_ci_stub 1 1 sd am Hsd0) as (yd & Hyd & Eyd).
  destruct (get_ci_stub (1 - 1 / 1000000) 1 sd am Hsd0) as (yb & Hyb & Eyb).
  exists ya, yd, yb. repeat split; try assumption.
  - rewrite Eya.
    apply (stub_target_far _ _ 1);
      [lra | rewrite Rabs_pos_eq; lra | apply inv_bound; lra].
  - rewrite Eyd. replace (1 - 1) with 0 by ring. rewrite stub_target_near. lra.
  - rewrite Eyb. apply stub_target_close; try lra. rewrite Rabs_pos_eq; lra.
Qed.

(** ... and when the estimate is -1. *)
Lemma stub_target_at_minus_one (sd am : R) :
  1 / 2 <= sd <= 1 -> 1 / 20 <= am <= 1 / 2 ->
  exists ya yd yb,
    _get_ci sf_stub cdf_stub (Fin (-1 + 1 / 1000000)) (Fin (-1)) (Fin sd) (Fin am) = Fin ya
    /\ _get_ci sf_stub cdf_stub (Fin (-1)) (Fin (-1)) (Fin sd) (Fin am) = Fin yd
    /\ _get_ci sf_stub cdf_stub (Fin (1 - 1 / 1000000)) (Fin (-1)) (Fin sd) (Fin am) = Fin yb
    /\ 0 < ya /\ 0 < yd /\ yb < 0.
Proof.
  intros Hsd Ha. assert (Hsd0 : sd <> 0) by lra.
  destruct (get_ci_stub (-1 + 1 / 1000000) (-1) sd am Hsd0) as (ya & Hya & Eya).
  destruct (get_ci_stub (-1) (-1) sd am Hsd0) as (yd & Hyd & Eyd).
  destruct (get_ci_stub (1 - 1 / 1000000) (-1) sd am Hsd0) as (yb & Hyb & Eyb).
  exists ya, yd, yb. repeat split; try assumption.
  - rewrite Eya. apply stub_target_close; try lra. rewrite Rabs_left; lra.
  - rewrite Eyd. replace (-1 - -1) with 0 by ring. rewrite stub_target_near. lra.
  - rewrite Eyb.
    apply (stub_target_far _ _ 1);
      [lra | rewrite Rabs_left; lra | apply inv_bound; lra].
Qed.

(** C5, as the code behaves.  The root-finder raises its sign error when
    the target has the same sign at both ends of a bracket.  The entry
    point lets that exception through unchanged, for the lower bracket
    and (when the lower root was found) for the upper one; no result is
    returned.  It is the same exception in both cases: nothing in it
    tells which bound failed. *)
Theorem sign_failure_propagates_unlabelled
    (sf cdf : fval -> fval) (brentq : (fval -> fval) -> fval -> fval -> result fval)
    (g1 g2 : list bool) (delta alpha : fval) (alt : string) (sd : fval) :
  (forall f a b, same_sign (f a) (f b) -> brentq f a b = Raise sign_error) ->
  In (casefold alt) alternatives ->
  _get_sd_diff_ML_null (List.length g1) (List.length g2)
    (np_mean g1) (np_mean g2) delta = Ok sd ->
  let diff_ml := (np_mean g1 - np_mean g2)%fl in
  let alpha_mod :=
    if String.eqb (casefold alt) "two-sided" then alpha else (#2 * alpha)%fl in
  let f := fun x => _get_ci sf cdf x diff_ml sd alpha_mod in
  (same_sign (f (Fin (-1 + 1 / 1000000))) (f diff_ml) ->
   farrington_manning sf cdf brentq g1 g2 delta alt alpha = Raise sign_error)
  /\ (forall x, brentq f (Fin (-1 + 1 / 1000000)) diff_ml = Ok x ->
      same_sign (f diff_ml) (f (Fin (1 - 1 / 1000000))) ->
      farrington_manning sf cdf brentq g1 g2 delta alt alpha = Raise sign_error).
Proof.
  intros Hsign Halt Hsd diff_ml alpha_mod f.
  rewrite farrington_manning_good_alternative by assumption.
  cbv zeta. rewrite Hsd. cbn [bind]. split.
  - intros Hlow. pose proof (Hsign f _ _ Hlow) as E.
    unfold f, diff_ml, alpha_mod in E. rewrite E. reflexivity.
  - intros x Hx Hup. unfold f, diff_ml, alpha_mod in Hx. rewrite Hx. cbn [bind].
    pose proof (Hsign f _ _ Hup) as E.
    unfold f, diff_ml, alpha_mod in E. rewrite E. reflexivity.
Qed.

Lemma sign_failure_propagates_unlabelled_witness :
  farrington_manning sf_stub cdf_stub brentq_stub [false; false] [true] (Fin 0)
    "two-sided" (Fin (1 / 20)) = Raise sign_error
  /\ farrington_manning sf_stub cdf_stub brentq_stub [true] [false; false] (Fin 0)
       "two-sided" (Fin (1 / 20)) = Raise sign_error.
Proof.
  split.
  - destruct example_none_vs_all as (Hdiff & sd & Hsd & Hsolve).
    destruct (stub_target_at_minus_one sd (1 / 20) Hsd ltac:(lra))
      as (ya & yd & yb & Hya & Hyd & Hyb & Ha & Hd & Hb).
    apply (proj1 (sign_failure_propagates_unlabelled sf_stub cdf_stub brentq_stub
                    [false; false] [true] (Fin 0) (Fin (1 / 20)) "two-sided" (Fin sd)
                    brentq_stub_sign_check ltac:(simpl; auto) Hsolve)).
    rewrite Hdiff. cbn [casefold casefold_ascii String.eqb].
    change (same_sign
              (_get_ci sf_stub cdf_stub (Fin (-1 + 1 / 1000000)) (Fin (-1)) (Fin sd)
                 (Fin (1 / 20)))
              (_get_ci sf_stub cdf_stub (Fin (-1)) (Fin (-1)) (Fin sd) (Fin (1 / 20)))).
    rewrite Hya, Hyd. apply same_sign_fin. nra.
  - destruct example_all_vs_none as (Hdiff & sd & Hsd & Hsolve).
    destruct (stub_target_at_one sd (1 / 20) Hsd ltac:(lra))
      as (ya & yd & yb & Hya & Hyd & Hyb & Ha & Hd & Hb).
    apply (proj2 (sign_failure_propagates_unlabelled sf_stub cdf_stub brentq_stub
                    [true] [false; false] (Fin 0) (Fin (1 / 20)) "two-sided" (Fin sd)
                    brentq_stub_sign_check ltac:(simpl; auto) Hsolve)
             (Fin ((-1 + 1 / 1000000 + 1) / 2))).
    + rewrite Hdiff.
      change (brentq_stub
                (fun x => _get_ci sf_stub cdf_stub x (Fin 1) (Fin sd) (Fin (1 / 20)))
                (Fin (-1 + 1 / 1000000)) (Fin 1)
              = Ok (Fin ((-1 + 1 / 1000000 + 1) / 2))).
      apply (brentq_stub_root _ _ _ ya yd); [exact Hya | exact Hyd | nra].
    + rewrite Hdiff.
      change (same_sign
                (_get_ci sf_stub cdf_stub (Fin 1) (Fin 1) (Fin sd) (Fin (1 / 20)))
                (_get_ci sf_stub cdf_stub (Fin (1 - 1 / 1000000)) (Fin 1) (Fin sd)
                   (Fin (1 / 20)))).
      rewrite Hyd, Hyb. apply same_sign_fin. nra.
Defined.

(** C5 as stated fails in its last part: a failure of the lower bracket
    (first run) and a failure of the upper bracket (second run, whose
    lower bracket does change sign) give the very same exception. *)
Lemma sign_failure_same_for_both_bounds :
  exists sd_a sd_b,
    _get_sd_diff_ML_null 2 1 (np_mean [false; false]) (np_mean [true]) (Fin 0)
    = Ok (Fin sd_a)
    /\ same_sign
         (_get_ci sf_stub cdf_stub (Fin (-1 + 1 / 1000000)) (Fin (-1)) (Fin sd_a)
            (Fin (1 / 20)))
         (_get_ci sf_stub cdf_stub (Fin (-1)) (Fin (-1)) (Fin sd_a) (Fin (1 / 20)))
    /\ _get_sd_diff_ML_null 1 2 (np_mean [true]) (np_mean [false; false]) (Fin 0)
       = Ok (Fin sd_b)
    /\ ~ same_sign
         (_get_ci sf_stub cdf_stub (Fin (-1 + 1 / 1000000)) (Fin 1) (Fin sd_b)
            (Fin (1 / 20)))
         (_get_ci sf_stub cdf_stub (Fin 1) (Fin 1) (Fin sd_b) (Fin (1 / 20)))
    /\ same_sign
         (_get_ci sf_stub cdf_stub (Fin 1) (Fin 1) (Fin sd_b) (Fin (1 / 20)))
         (_get_ci sf_stub cdf_stub (Fin (1 - 1 / 1000000)) (Fin 1) (Fin sd_b)
            (Fin (1 / 20)))
    /\ farrington_manning sf_stub cdf_stub brentq_stub [false; false] [true] (Fin 0)
         "two-sided" (Fin (1 / 20)) = Raise sign_error
    /\ farrington_manning sf_stub cdf_stub brentq_stub [true] [false; false] (Fin 0)
         "two-sided" (Fin (1 / 20)) = Raise sign_error.
Proof.
  destruct example_none_vs_all as (Hdiff_a & sd_a & Hsd_a & Hsolve_a).
  destruct example_all_vs_none as (Hdiff_b & sd_b & Hsd_b & Hsolve_b).
  destruct (stub_target_at_minus_one sd_a (1 / 20) Hsd_a ltac:(lra))
    as (ya & yd & yb & Hya & Hyd & Hyb & Ha & Hd & Hb).
  destruct (stub_target_at_one sd_b (1 / 20) Hsd_b ltac:(lra))
    as (ya' & yd' & yb' & Hya' & Hyd' & Hyb' & Ha' & Hd' & Hb').
  exists sd_a, sd_b.
  split; [exact Hsolve_a|].
  split; [rewrite Hya, Hyd; apply same_sign_fin; nra|].
  split; [exact Hsolve_b|].
  split.
  { rewrite Hya', Hyd'. unfold same_sign. simpl.
    destruct (Rlt_dec 0 (ya' * yd')); [nra | discriminate]. }
  split; [rewrite Hyd', Hyb'; apply same_sign_fin; nra|].
  split.
  - rewrite farrington_manning_good_alternative by (simpl; auto).
    cbv zeta. cbn [List.length]. rewrite Hsolve_a, Hdiff_a. cbn [bind].
    change (String.eqb (casefold "two-sided") "two-sided") with true. cbv iota.
    rewrite (brentq_stub_same_sign
               (fun x => _get_ci sf_stub cdf_stub x (Fin (-1)) (Fin sd_a) (Fin (1 / 20)))
               _ _ ya yd Hya Hyd) by nra.
    reflexivity.
  - rewrite farrington_manning_good_alternative by (simpl; auto).
    cbv zeta. cbn [List.length]. rewrite Hsolve_b, Hdiff_b. cbn [bind].
    change (String.eqb (casefold "two-sided") "two-sided") with true. cbv iota.
    rewrite (brentq_stub_root
               (fun x => _get_ci sf_stub cdf_stub x (Fin 1) (Fin sd_b) (Fin (1 / 20)))
               _ _ ya' yd' Hya' Hyd') by nra.
    cbn [bind].
    rewrite (brentq_stub_same_sign
               (fun x => _get_ci sf_stub cdf_stub x (Fin 1) (Fin sd_b) (Fin (1 / 20)))
               _ _ yd' yb' Hyd' Hyb') by nra.
    reflexivity.
Qed.

(** * The interval and the estimate *)

Lemma le_trans (x y z : fval) : Float.le x y -> Float.le y z -> Float.le x z.
Proof.
  destruct x, y, z; simpl; try tauto. intros; lra.
Qed.

Lemma brentq_stub_between (f : fval -> fval) (a b : R) (x : fval) :
  brentq_stub f (Fin a) (Fin b) = Ok x -> between (Fin a) (Fin b) x.
Proof.
  unfold brentq_stub. destruct (Float.ltb _ _); [discriminate|].
  cbn [Float.add]. rewrite div_fin by lra. intros [= <-].
  unfold between. simpl. destruct (Rle_dec a b); [left | right]; lra.
Qed.

(** C9, as the code behaves.  The root-finder returns a point of its
    bracket.  Whenever both bounds are found and the estimated
    difference lies in [[-1 + 1e-6, 1 - 1e-6]], the lower bound is at
    most the difference and the upper bound at least the difference. *)
Theorem ci_brackets_estimate
    (sf cdf : fval -> fval) (brentq : (fval -> fval) -> fval -> fval -> result fval)
    (g1 g2 : list bool) (delta alpha : fval) (alt : string) (r : TestResult) :
  (forall f a b x, brentq f (Fin a) (Fin b) = Ok x -> between (Fin a) (Fin b) x) ->
  farrington_manning sf cdf brentq g1 g2 delta alt alpha = Ok r ->
  Float.le (Fin (-1 + 1 / 1000000)) (rate_difference r) ->
  Float.le (rate_difference r) (Fin (1 - 1 / 1000000)) ->
  Float.le (fst (ci r)) (rate_difference r)
  /\ Float.le (rate_difference r) (snd (ci r)).
Proof.
  intros Hbr Hrun Hlo Hhi.
  apply farrington_manning_ok_inv in Hrun.
  destruct Hrun as (_ & sd & lo_ & hi_ & _ & Hbl & Hbu & Hrd & _ & _ & Hci).
  cbv zeta in Hbl, Hbu, Hrd. rewrite Hci. cbn [fst snd].
  rewrite Hrd in *.
  destruct (np_mean g1 - np_mean g2)%fl as [d| | |] eqn:Ed;
    simpl in Hlo, Hhi; try contradiction.
  apply Hbr in Hbl. apply Hbr in Hbu. split.
  - destruct Hbl as [[_ H]|[H1 H2]]; [exact H|].
    apply (le_trans _ (Fin (-1 + 1 / 1000000))); [exact H2 | exact Hlo].
  - destruct Hbu as [[H _]|[H1 H2]]; [exact H|].
    apply (le_trans _ (Fin (1 - 1 / 1000000))); [exact Hhi | exact H1].
Qed.

Lemma ci_brackets_estimate_witness :
  exists r,
    farrington_manning sf_stub cdf_stub brentq_stub [true; false] [false; false]
      (Fin 0) "two-sided" (Fin (1 / 20)) = Ok r
    /\ Float.le (fst (ci r)) (rate_difference r)
    /\ Float.le (rate_difference r) (snd (ci r)).
Proof.
  destruct example_interior as (Hdiff & sd & Hsd & Hsolve).
  destruct (stub_run_interior [true; false] [false; false] (Fin 0) "two-sided"
              (1 / 20) (1 / 2) sd) as (r & Hr & Hrd & _);
    try assumption; try (simpl; auto; fail); try lra.
  { unfold alpha_mod_of. simpl. lra. }
  exists r. split; [exact Hr|].
  apply (ci_brackets_estimate sf_stub cdf_stub brentq_stub [true; false] [false; false]
           (Fin 0) (Fin (1 / 20)) "two-sided" r brentq_stub_between Hr).
  - rewrite Hrd. simpl. lra.
  - rewrite Hrd. simpl. lra.
Defined.

(** C9 as stated fails when the estimate is 1: the upper bracket
    [[diff_ml, 1 - 1e-6]] then lies below the estimate.  With the
    one-sided level 0.4999999 both bounds are found, and the upper one is
    smaller than the estimated difference. *)
Lemma ci_upper_below_estimate :
  exists r,
    farrington_manning sf_stub cdf_stub brentq_stub [true] [false; false]
      (Fin 0) "greater" (Fin (4999999 / 10000000)) = Ok r
    /\ rate_difference r = Fin 1
    /\ snd (ci r) = Fin ((1 + (1 - 1 / 1000000)) / 2)
    /\ ~ Float.le (rate_difference r) (snd (ci r)).
Proof.
  destruct example_all_vs_none as (Hdiff & sd & Hsd & Hsolve).
  destruct (stub_run_ok [true] [false; false] (Fin 0) "greater"
              (4999999 / 10000000) 1 sd) as (r & Hr & Hrd & _ & Hci);
    try assumption; try (simpl; auto; fail).
  - lra.
  - unfold alpha_mod_of. simpl. lra.
  - rewrite Rabs_pos_eq; lra.
  - unfold alpha_mod_of. simpl. rewrite Rabs_pos_eq by lra. apply inv_bound; lra.
  - rewrite Rabs_pos_eq; lra.
  - unfold alpha_mod_of. simpl. rewrite Rabs_pos_eq by lra. apply inv_bound; lra.
  - exists r. split; [exact Hr|]. split; [exact Hrd|].
    rewrite Hci, Hrd. cbn [snd]. split; [reflexivity|].
    simpl. lra.
Qed.

(** * The target of the confidence-interval search *)

(** C1 fails on the code.  Data: one success in two against none in two,
    margin 0.  The null standard error at the margin is [sd0]; at the
    candidate 0.9, inside the upper bracket, the solver gives a smaller
    one, [sdc], so the statistic recomputed there differs.  The target
    that the entry point hands to the root-finder nevertheless evaluates,
    at that candidate, with [sd0]. *)
Theorem ci_target_keeps_first_sd (sf cdf : fval -> fval) :
  exists sd0 sdc,
    _get_sd_diff_ML_null 2 2 (np_mean [true; false]) (np_mean [false; false]) (Fin 0)
    = Ok (Fin sd0)
    /\ _get_sd_diff_ML_null 2 2 (np_mean [true; false]) (np_mean [false; false])
         (Fin (9 / 10)) = Ok (Fin sdc)
    /\ sdc < sd0
    /\ _get_z (Fin (1 / 2)) (Fin (9 / 10)) (Fin sdc)
       <> _get_z (Fin (1 / 2)) (Fin (9 / 10)) (Fin sd0)
    /\ exists r,
         farrington_manning sf cdf (brentq_probe (Fin (9 / 10)))
           [true; false] [false; false] (Fin 0) "two-sided" (Fin (1 / 20)) = Ok r
         /\ fst (ci r)
            = (#2 * Float.min (sf (_get_z (Fin (1 / 2)) (Fin (9 / 10)) (Fin sd0)))
                              (cdf (_get_z (Fin (1 / 2)) (Fin (9 / 10)) (Fin sd0)))
               - Fin (1 / 20))%fl
         /\ snd (ci r) = fst (ci r).
Proof.
  assert (Hm1 : np_mean [true; false] = Fin (1 / 2)).
  { rewrite np_mean_nonempty by discriminate. cbn [map int_of_bool List.length].
    change (list_sum [1%nat; 0%nat]) with 1%nat.
    replace (INR 1 / INR 2) with (1 / 2) by (simpl; field). reflexivity. }
  assert (Hm2 : np_mean [false; false] = Fin 0).
  { rewrite np_mean_nonempty by discriminate. cbn [map int_of_bool List.length].
    change (list_sum [0%nat; 0%nat]) with 0%nat.
    replace (INR 0 / INR 2) with 0 by (simpl; field). reflexivity. }
  destruct example_interior as (Hdiff & sd0 & Hsd0 & Hsolve0).
  (* the standard error at the margin, exactly *)
  assert (Hsd0' : sd0 = sqrt (3 / 16)).
  { rewrite Hm1, Hm2 in Hsolve0.
    rewrite solver_zero_margin in Hsolve0; try lia; try lra.
    - injection Hsolve0 as <-. f_equal.
      unfold pooled, Spec.theta. simpl. field.
    - assert (Hv : Spec.v 2 2 (1 / 2) 0 0 = - 35 / 1728).
      { unfold Spec.v, Spec.b, Spec.c, Spec.d, Spec.a, Spec.theta. simpl. field. }
      rewrite Hv. lra. }
  (* the standard error at the candidate *)
  assert (Hvc : Spec.v 2 2 (1 / 2) 0 (9 / 10) <> 0).
  { assert (Hv : Spec.v 2 2 (1 / 2) 0 (9 / 10) = 89 / 21600).
    { unfold Spec.v, Spec.b, Spec.c, Spec.d, Spec.a, Spec.theta. simpl. field. }
    rewrite Hv. lra. }
  assert (Hsolvec : _get_sd_diff_ML_null 2 2 (Fin (1 / 2)) (Fin 0) (Fin (9 / 10))
                    = Ok (Fin (Spec.sd_null 2 2 (1 / 2) 0 (9 / 10)))).
  { apply solver_valid; try lia; lra. }
  assert (Hrange : 9 / 10 <= Spec.p1_null 2 2 (1 / 2) 0 (9 / 10) <= 1).
  { pose proof (p1_null_range 2 2 (1 / 2) 0 (9 / 10)
                  ltac:(lia) ltac:(lia) ltac:(lra) ltac:(lra) ltac:(lra) Hvc) as Hr.
    unfold lo, hi in Hr. rewrite Rmax_right, Rmin_left in Hr by lra. exact Hr. }
  assert (Hvar : 0 <= Spec.variance 2 2 (1 / 2) 0 (9 / 10) <= 9 / 100).
  { split.
    - apply variance_nonneg; try lia; lra.
    - unfold Spec.variance, Spec.p2_null.
      set (p := Spec.p1_null 2 2 (1 / 2) 0 (9 / 10)) in *.
      replace (INR 2) with 2 by (simpl; ring). nra. }
  assert (Hlt : Spec.sd_null 2 2 (1 / 2) 0 (9 / 10) < sd0).
  { rewrite Hsd0'. unfold Spec.sd_null. apply sqrt_lt_1; lra. }
  exists sd0, (Spec.sd_null 2 2 (1 / 2) 0 (9 / 10)).
  split; [exact Hsolve0|].
  split; [rewrite Hm1, Hm2; exact Hsolvec|].
  split; [exact Hlt|].
  split.
  - assert (Hc : 0 <= Spec.sd_null 2 2 (1 / 2) 0 (9 / 10)) by apply sqrt_pos.
    set (sdc := Spec.sd_null 2 2 (1 / 2) 0 (9 / 10)) in *.
    unfold _get_z. cbn [Float.sub Float.neg Float.add].
    rewrite (div_fin _ sd0) by lra.
    destruct (Req_dec_T sdc 0) as [E0|Hne].
    + rewrite E0. simpl.
      destruct (Req_dec_T 0 0) as [_|Hn]; [|exfalso; apply Hn; reflexivity].
      destruct (Rlt_dec 0 (1 / 2 + - (9 / 10))); [lra|].
      destruct (Rlt_dec (1 / 2 + - (9 / 10)) 0); [discriminate | lra].
    + rewrite div_fin by assumption. intros H. injection H as H.
      assert (Hinv : / sdc = / sd0).
      { apply (Rmult_eq_reg_l (1 / 2 + - (9 / 10))); [exact H | lra]. }
      apply (f_equal Rinv) in Hinv. rewrite !Rinv_inv in Hinv. lra.
  - rewrite farrington_manning_good_alternative by (simpl; auto).
    cbv zeta. cbn [List.length]. rewrite Hsolve0, Hdiff. cbn [bind].
    change (String.eqb (casefold "two-sided") "two-sided") with true. cbv iota.
    unfold brentq_probe. cbn [bind].
    eexists. split; [reflexivity|]. cbn [ci fst snd]. split; reflexivity.
Qed.

(** * Further properties of the code *)

(** ** The observed proportions *)

Lemma successes_le_length (g : list bool) :
  (list_sum (map int_of_bool g) <= List.length g)%nat.
Proof.
  induction g as [|x g IH]; simpl; [lia|]. destruct x; simpl; lia.
Qed.

Lemma np_mean_unit (g : list bool) :
  g <> [] ->
  exists p, np_mean g = Fin p /\ 0 <= p <= 1
            /\ p = INR (list_sum (map int_of_bool g)) / INR (List.length g).
Proof.
  intros Hg. rewrite np_mean_nonempty by assumption.
  eexists. split; [reflexivity|]. split; [|reflexivity].
  assert (Hn : 0 < INR (List.length g)).
  { destruct g; [contradiction|]. apply INR_S_pos. }
  pose proof (le_INR _ _ (successes_le_length g)) as Hle.
  pose proof (pos_INR (list_sum (map int_of_bool g))) as H0.
  split.
  - apply Rle_mult_inv_pos; assumption.
  - apply (Rmult_le_reg_r (INR (List.length g))); [assumption|].
    unfold Rdiv. rewrite Rmult_assoc, Rinv_l by lra. lra.
Qed.

(** X1. For non-empty groups, the reported [rate_difference] of every
    returned result is the difference of the two success fractions, a
    number between -1 and 1. *)
Theorem rate_difference_in_range
    (sf cdf : fval -> fval) (brentq : (fval -> fval) -> fval -> fval -> result fval)
    (g1 g2 : list bool) (delta alpha : fval) (alt : string) (r : TestResult) :
  g1 <> [] -> g2 <> [] ->
  farrington_manning sf cdf brentq g1 g2 delta alt alpha = Ok r ->
  exists d,
    rate_difference r = Fin d /\ -1 <= d <= 1
    /\ d = INR (list_sum (map int_of_bool g1)) / INR (List.length g1)
           - INR (list_sum (map int_of_bool g2)) / INR (List.length g2).
Proof.
  intros H1 H2 Hrun.
  apply farrington_manning_ok_inv in Hrun.
  destruct Hrun as (_ & sd & lo_ & hi_ & _ & _ & _ & Hrd & _).
  cbv zeta in Hrd.
  destruct (np_mean_unit g1 H1) as (p1 & E1 & R1 & D1).
  destruct (np_mean_unit g2 H2) as (p2 & E2 & R2 & D2).
  rewrite E1, E2 in Hrd. cbn [Float.sub Float.neg Float.add] in Hrd.
  exists (p1 + - p2). split; [exact Hrd|]. split; [lra|]. rewrite D1, D2. ring.
Qed.

Lemma rate_difference_in_range_witness :
  exists r d,
    farrington_manning sf_stub cdf_stub brentq_stub [true; false] [false; false]
      (Fin 0) "less" (Fin (1 / 20)) = Ok r
    /\ rate_difference r = Fin d /\ -1 <= d <= 1.
Proof.
  destruct example_interior as (Hdiff & sd & Hsd & Hsolve).
  destruct (stub_run_interior [true; false] [false; false] (Fin 0) "less"
              (1 / 20) (1 / 2) sd) as (r & Hr & _);
    try assumption; try (simpl; auto; fail); try lra.
  { unfold alpha_mod_of. simpl. lra. }
  destruct (rate_difference_in_range sf_stub cdf_stub brentq_stub
              [true; false] [false; false] (Fin 0) (Fin (1 / 20)) "less" r
              ltac:(discriminate) ltac:(discriminate) Hr) as (d & Hd & Hrange & _).
  exists r, d. repeat split; try assumption; lra.
Defined.

(** ** Valid data never fail in the solver *)




(** ** Size of the null standard error *)

Lemma product_quarter (p : R) : p * (1 - p) <= 1 / 4.
Proof. pose proof (Rle_0_sqr (p - 1 / 2)) as H. unfold Rsqr in H. lra. Qed.



(** ** A zero margin *)








(** ** Identical outcomes *)

Lemma successes_constant (b : bool) (g : list bool) :
  Forall (eq b) g ->
  list_sum (map int_of_bool g) = if b then List.length g else 0%nat.
Proof.
  induction 1 as [|x g Hx Hg IH]; simpl.
  - destruct b; reflexivity.
  - subst x. rewrite IH. destruct b; reflexivity.
Qed.



(** ** Symmetry of the solver *)



(** ** The alternative and the interval *)

Lemma one_sided_not_two_sided (alt : string) :
  casefold alt <> "two-sided"%string ->
  String.eqb (casefold alt) "two-sided" = false.
Proof.
  intros H. destruct (String.eqb_spec (casefold alt) "two-sided"); [contradiction|].
  reflexivity.
Qed.

(** X8. The interval does not depend on the direction of a one-sided
    alternative: for two recognised one-sided alternatives the two calls
    raise the same exception or return results with the same
    [rate_difference], [z_statistic] and [ci].  The same holds between a
    one-sided call at level [alpha] and a two-sided call at level
    [2 * alpha]. *)
Theorem interval_ignores_direction
    (sf cdf : fval -> fval) (brentq : (fval -> fval) -> fval -> fval -> result fval)
    (g1 g2 : list bool) (delta alpha : fval) (alt1 alt2 : string) :
  In (casefold alt1) alternatives -> In (casefold alt2) alternatives ->
  casefold alt1 <> "two-sided"%string ->
  same_but_p_value
    (farrington_manning sf cdf brentq g1 g2 delta alt1 alpha)
    (farrington_manning sf cdf brentq g1 g2 delta alt2
       (if String.eqb (casefold alt2) "two-sided" then (#2 * alpha)%fl else alpha)).
Proof.
  intros Ha1 Ha2 H1.
  rewrite !farrington_manning_good_alternative by assumption. cbv zeta.
  rewrite (one_sided_not_two_sided alt1 H1).
  assert (Hmod : (if String.eqb (casefold alt2) "two-sided"
                  then (if String.eqb (casefold alt2) "two-sided"
                        then (#2 * alpha)%fl else alpha)
                  else (#2 * (if String.eqb (casefold alt2) "two-sided"
                              then (#2 * alpha)%fl else alpha))%fl)
                 = (#2 * alpha)%fl).
  { destruct (String.eqb (casefold alt2) "two-sided"); reflexivity. }
  rewrite Hmod.
  destruct (_get_sd_diff_ML_null _ _ _ _ _) as [sd|e]; cbn [bind]; [|reflexivity].
  destruct (brentq _ (Fin (-1 + 1 / 1000000)) _) as [lo_|e]; cbn [bind]; [|reflexivity].
  destruct (brentq _ _ (Fin (1 - 1 / 1000000))) as [hi_|e]; cbn [bind]; [|reflexivity].
  cbn. repeat split.
Qed.

Lemma interval_ignores_direction_witness :
  same_but_p_value
    (farrington_manning sf_stub cdf_stub brentq_stub [true; false] [false; false]
       (Fin 0) "greater" (Fin (1 / 20)))
    (farrington_manning sf_stub cdf_stub brentq_stub [true; false] [false; false]
       (Fin 0) "LESS" (Fin (1 / 20))).
Proof.
  apply (interval_ignores_direction sf_stub cdf_stub brentq_stub
           [true; false] [false; false] (Fin 0) (Fin (1 / 20)) "greater" "LESS").
  - simpl. auto.
  - simpl. auto.
  - discriminate.
Defined.

(** ** The search target *)

Lemma two_sided_even (sf cdf : fval -> fval) (z : fval) :
  (forall z, sf z = cdf (- z)%fl) ->
  (forall z, z <> NaN -> exists p, cdf z = Fin p) ->
  cdf NaN = NaN ->
  Float.min (sf (- z)%fl) (cdf (- z)%fl) = Float.min (sf z) (cdf z).
Proof.
  intros Hsf Hfin Hnan.
  rewrite (Hsf (- z)%fl), neg_involutive, (Hsf z).
  destruct z as [x| | |].
  - destruct (Hfin (Fin x)) as (p & Ep); [discriminate|].
    destruct (Hfin (- Fin x)%fl) as (q & Eq); [discriminate|].
    rewrite Ep, Eq. apply min_comm_fin.
  - destruct (Hfin PInf) as (p & Ep); [discriminate|].
    destruct (Hfin (- PInf)%fl) as (q & Eq); [discriminate|].
    rewrite Ep, Eq. apply min_comm_fin.
  - destruct (Hfin NInf) as (p & Ep); [discriminate|].
    destruct (Hfin (- NInf)%fl) as (q & Eq); [discriminate|].
    rewrite Ep, Eq. apply min_comm_fin.
  - simpl. rewrite Hnan. reflexivity.
Qed.

(** X9. With a distribution provider that satisfies [sf z = cdf (-z)],
    the target of the interval search takes the same value at equal
    distances on both sides of the estimate, whatever the standard error
    it was given. *)
Theorem target_even_about_estimate
    (sf cdf : fval -> fval) (diff t : R) (sd alpha_mod : fval) :
  (forall z, sf z = cdf (- z)%fl) ->
  (forall z, z <> NaN -> exists p, cdf z = Fin p) ->
  cdf NaN = NaN ->
  _get_ci sf cdf (Fin (diff + t)) (Fin diff) sd alpha_mod
  = _get_ci sf cdf (Fin (diff - t)) (Fin diff) sd alpha_mod.
Proof.
  intros Hsf Hfin Hnan. unfold _get_ci. cbv zeta.
  assert (Ez : _get_z (Fin diff) (Fin (diff + t)) sd
               = (- _get_z (Fin diff) (Fin (diff - t)) sd)%fl).
  { unfold _get_z. rewrite <- neg_div. f_equal.
    cbn [Float.sub Float.neg Float.add]. f_equal. ring. }
  rewrite Ez, (two_sided_even sf cdf _ Hsf Hfin Hnan). reflexivity.
Qed.

Lemma target_even_about_estimate_witness :
  _get_ci sf_stub cdf_stub (Fin (1 / 2 + 1 / 10)) (Fin (1 / 2)) (Fin (1 / 4))
    (Fin (1 / 20))
  = _get_ci sf_stub cdf_stub (Fin (1 / 2 - 1 / 10)) (Fin (1 / 2)) (Fin (1 / 4))
      (Fin (1 / 20)).
Proof.
  apply (target_even_about_estimate sf_stub cdf_stub (1 / 2) (1 / 10)
           (Fin (1 / 4)) (Fin (1 / 20))).
  - apply stub_sf_cdf.
  - apply stub_cdf_number.
  - reflexivity.
Defined.

Lemma min_fin (p q : R) : Float.min (Fin p) (Fin q) = Fin (Rmin p q).
Proof.
  unfold Float.min, Float.ltb, Rmin.
  destruct (Rlt_dec q p), (Rle_dec p q); try reflexivity; lra.
Qed.

Lemma Rmin_tail (F : R -> R) (z : R) :
  (forall a b, a <= b -> F a <= F b) -> Rmin (F (- z)) (F z) = F (- Rabs z).
Proof.
  intros Hmono. unfold Rabs. destruct (Rcase_abs z) as [Hz|Hz].
  - rewrite Ropp_involutive. apply Rmin_right. apply Hmono. lra.
  - apply Rmin_left. apply Hmono. lra.
Qed.

(** X10. With an increasing distribution function [F] ([cdf] on
    numbers, [sf z = cdf (-z)]) and a positive standard error, the
    target of the interval search does not increase with the distance
    from the estimate: it is largest at the estimate itself. *)
Theorem target_decreases_away_from_estimate
    (sf cdf : fval -> fval) (F : R -> R) (diff sd alpha_mod x y : R) :
  (forall z, sf z = cdf (- z)%fl) ->
  (forall a, cdf (Fin a) = Fin (F a)) ->
  (forall a b, a <= b -> F a <= F b) ->
  0 < sd ->
  Rabs (x - diff) <= Rabs (y - diff) ->
  Float.le (_get_ci sf cdf (Fin y) (Fin diff) (Fin sd) (Fin alpha_mod))
           (_get_ci sf cdf (Fin x) (Fin diff) (Fin sd) (Fin alpha_mod)).
Proof.
  intros Hsf Hcdf Hmono Hsd Hxy.
  assert (Hval : forall u,
             _get_ci sf cdf (Fin u) (Fin diff) (Fin sd) (Fin alpha_mod)
             = Fin (2 * F (- Rabs ((diff - u) / sd)) + - alpha_mod)).
  { intros u. unfold _get_ci, _get_z. cbv zeta.
    cbn [Float.sub Float.neg Float.add]. rewrite div_fin by lra.
    rewrite Hsf. cbn [Float.neg]. rewrite !Hcdf, min_fin.
    cbn [Float.mul Float.sub Float.neg Float.add].
    replace ((diff + - u) / sd) with ((diff - u) / sd) by (unfold Rminus; reflexivity).
    rewrite (Rmin_tail F ((diff - u) / sd) Hmono). reflexivity. }
  rewrite !Hval. simpl.
  assert (Hz : Rabs ((diff - x) / sd) <= Rabs ((diff - y) / sd)).
  { unfold Rdiv. rewrite !Rabs_mult.
    apply Rmult_le_compat_r; [apply Rabs_pos|].
    rewrite (Rabs_minus_sym diff x), (Rabs_minus_sym diff y). exact Hxy. }
  assert (F (- Rabs ((diff - y) / sd)) <= F (- Rabs ((diff - x) / sd)))
    by (apply Hmono; lra).
  lra.
Qed.

Lemma div_le_cross (x y x' y' : R) :
  0 < y -> 0 < y' -> x * y' <= x' * y -> x / y <= x' / y'.
Proof.
  intros Hy Hy' H.
  apply (Rmult_le_reg_r (y * y')); [nra|].
  replace (x / y * (y * y')) with (x * y') by (field; lra).
  replace (x' / y' * (y * y')) with (x' * y) by (field; lra).
  exact H.
Qed.

Lemma cdf_stub_increasing (a b : R) :
  a <= b ->
  1 / 2 + 100 * a / (2 * (1 + 100 * Rabs a))
  <= 1 / 2 + 100 * b / (2 * (1 + 100 * Rabs b)).
Proof.
  intros Hab. apply Rplus_le_compat_l.
  pose proof (Rabs_pos a). pose proof (Rabs_pos b).
  apply div_le_cross; try lra.
  unfold Rabs in *. destruct (Rcase_abs a), (Rcase_abs b); nra.
Qed.

Lemma target_decreases_away_from_estimate_witness :
  Float.le (_get_ci sf_stub cdf_stub (Fin (9 / 10)) (Fin (1 / 2)) (Fin (1 / 4))
              (Fin (1 / 20)))
           (_get_ci sf_stub cdf_stub (Fin (2 / 5)) (Fin (1 / 2)) (Fin (1 / 4))
              (Fin (1 / 20))).
Proof.
  apply (target_decreases_away_from_estimate sf_stub cdf_stub
           (fun a => 1 / 2 + 100 * a / (2 * (1 + 100 * Rabs a)))
           (1 / 2) (1 / 4) (1 / 20) (2 / 5) (9 / 10)).
  - apply stub_sf_cdf.
  - reflexivity.
  - apply cdf_stub_increasing.
  - lra.
  - rewrite Rabs_left, Rabs_pos_eq; lra.
Defined.

(** ** The p-value *)

(** X11. With a distribution provider whose [cdf] is a probability on
    numbers and whose [sf] is its complement, every returned result with
    a finite statistic has a p-value that is a number between 0 and 1,
    for each of the three alternatives. *)
Theorem p_value_is_probability
    (sf cdf : fval -> fval) (brentq : (fval -> fval) -> fval -> fval -> result fval)
    (g1 g2 : list bool) (delta alpha : fval) (alt : string) (r : TestResult) (a : R) :
  (forall a, exists p, cdf (Fin a) = Fin p /\ sf (Fin a) = Fin (1 - p) /\ 0 <= p <= 1) ->
  farrington_manning sf cdf brentq g1 g2 delta alt alpha = Ok r ->
  z_statistic r = Fin a ->
  exists q, p_value r = Fin q /\ 0 <= q <= 1.
Proof.
  intros Hnorm Hrun Hza.
  apply farrington_manning_ok_inv in Hrun.
  destruct Hrun as (_ & sd & lo_ & hi_ & _ & _ & _ & _ & Hz & Hp & _).
  cbv zeta in Hz, Hp. rewrite <- Hz, Hza in Hp.
  destruct (Hnorm a) as (p & Ec & Es & Hrange).
  rewrite Ec, Es, min_fin in Hp. cbn [Float.mul] in Hp.
  destruct (String.eqb (casefold alt) "two-sided").
  - eexists. split; [exact Hp|].
    unfold Rmin. destruct (Rle_dec (1 - p) p); lra.
  - destruct (String.eqb (casefold alt) "greater").
    + eexists. split; [exact Hp|]. lra.
    + eexists. split; [exact Hp|]. lra.
Qed.

Lemma stub_is_probability (a : R) :
  exists p, cdf_stub (Fin a) = Fin p /\ sf_stub (Fin a) = Fin (1 - p) /\ 0 <= p <= 1.
Proof.
  pose proof (Rabs_pos a) as Ha.
  eexists. split; [reflexivity|]. split.
  - unfold sf_stub. cbn [Float.neg cdf_stub]. f_equal. rewrite Rabs_Ropp. field. lra.
  - assert (Hb : -1 / 2 <= 100 * a / (2 * (1 + 100 * Rabs a)) <= 1 / 2).
    { split.
      - replace (-1 / 2) with (-1 / 2 / 1) by field.
        apply div_le_cross; try lra. unfold Rabs in *. destruct (Rcase_abs a); lra.
      - replace (1 / 2) with (1 / 2 / 1) at 2 by field.
        apply div_le_cross; try lra. unfold Rabs in *. destruct (Rcase_abs a); lra. }
    lra.
Qed.

Lemma p_value_is_probability_witness :
  exists r q,
    farrington_manning sf_stub cdf_stub brentq_stub [true; false] [false; false]
      (Fin 0) "two-sided" (Fin (1 / 20)) = Ok r
    /\ p_value r = Fin q /\ 0 <= q <= 1.
Proof.
  destruct example_interior as (Hdiff & sd & Hsd & Hsolve).
  destruct (stub_run_interior [true; false] [false; false] (Fin 0) "two-sided"
              (1 / 20) (1 / 2) sd) as (r & Hr & _ & Hz & _);
    try assumption; try (simpl; auto; fail); try lra.
  { unfold alpha_mod_of. simpl. lra. }
  assert (Hza : z_statistic r = Fin ((1 / 2 + - 0) / sd)).
  { rewrite Hz. unfold _get_z. cbn [Float.sub Float.neg Float.add].
    apply div_fin. lra. }
  destruct (p_value_is_probability sf_stub cdf_stub brentq_stub
              [true; false] [false; false] (Fin 0) (Fin (1 / 20)) "two-sided" r
              ((1 / 2 + - 0) / sd) stub_is_probability Hr Hza) as (q & Hq & Hrange).
  exists r, q. repeat split; try assumption; lra.
Defined.

(** ** Where the bounds lie *)

Lemma interval_bounds
    (sf cdf : fval -> fval) (brentq : (fval -> fval) -> fval -> fval -> result fval)
    (g1 g2 : list bool) (delta alpha : fval) (alt : string) (r : TestResult) :
  (forall f a b x, brentq f (Fin a) (Fin b) = Ok x -> between (Fin a) (Fin b) x) ->
  g1 <> [] -> g2 <> [] ->
  farrington_manning sf cdf brentq g1 g2 delta alt alpha = Ok r ->
  exists d l u,
    rate_difference r = Fin d /\ -1 <= d <= 1 /\ ci r = (Fin l, Fin u)
    /\ Rmin (-1 + 1 / 1000000) d <= l <= Rmax (-1 + 1 / 1000000) d
    /\ Rmin d (1 - 1 / 1000000) <= u <= Rmax d (1 - 1 / 1000000).
Proof.
  intros Hbr H1 H2 Hrun.
  apply farrington_manning_ok_inv in Hrun.
  destruct Hrun as (_ & sd & lo_ & hi_ & _ & Hbl & Hbu & Hrd & _ & _ & Hci).
  cbv zeta in Hbl, Hbu, Hrd.
  destruct (np_mean_unit g1 H1) as (p1 & E1 & R1 & _).
  destruct (np_mean_unit g2 H2) as (p2 & E2 & R2 & _).
  rewrite E1, E2 in *. cbn [Float.sub Float.neg Float.add] in *.
  apply Hbr in Hbl. apply Hbr in Hbu.
  assert (Hl : exists l, lo_ = Fin l
                 /\ Rmin (-1 + 1 / 1000000) (p1 + - p2) <= l
                    <= Rmax (-1 + 1 / 1000000) (p1 + - p2)).
  { unfold between in Hbl. destruct lo_ as [l| | |]; simpl in Hbl; try tauto.
    exists l. split; [reflexivity|].
    pose proof (Rmin_l (-1 + 1 / 1000000) (p1 + - p2)).
    pose proof (Rmin_r (-1 + 1 / 1000000) (p1 + - p2)).
    pose proof (Rmax_l (-1 + 1 / 1000000) (p1 + - p2)).
    pose proof (Rmax_r (-1 + 1 / 1000000) (p1 + - p2)).
    destruct Hbl; lra. }
  assert (Hu : exists u, hi_ = Fin u
                 /\ Rmin (p1 + - p2) (1 - 1 / 1000000) <= u
                    <= Rmax (p1 + - p2) (1 - 1 / 1000000)).
  { unfold between in Hbu. destruct hi_ as [u| | |]; simpl in Hbu; try tauto.
    exists u. split; [reflexivity|].
    pose proof (Rmin_l (p1 + - p2) (1 - 1 / 1000000)).
    pose proof (Rmin_r (p1 + - p2) (1 - 1 / 1000000)).
    pose proof (Rmax_l (p1 + - p2) (1 - 1 / 1000000)).
    pose proof (Rmax_r (p1 + - p2) (1 - 1 / 1000000)).
    destruct Hbu; lra. }
  destruct Hl as (l & -> & Hl). destruct Hu as (u & -> & Hu).
  exists (p1 + - p2), l, u. repeat split; try assumption; lra.
Qed.

(** X12. When the root-finder returns a point of the bracket it is
    given, both bounds of every interval returned for non-empty groups
    are numbers between the estimate and the corresponding end
    [-1 + 1e-6] or [1 - 1e-6]; in particular they lie in [[-1, 1]]. *)
Theorem interval_within_unit_range
    (sf cdf : fval -> fval) (brentq : (fval -> fval) -> fval -> fval -> result fval)
    (g1 g2 : list bool) (delta alpha : fval) (alt : string) (r : TestResult) :
  (forall f a b x, brentq f (Fin a) (Fin b) = Ok x -> between (Fin a) (Fin b) x) ->
  g1 <> [] -> g2 <> [] ->
  farrington_manning sf cdf brentq g1 g2 delta alt alpha = Ok r ->
  exists d l u,
    rate_difference r = Fin d /\ ci r = (Fin l, Fin u)
    /\ Rmin (-1 + 1 / 1000000) d <= l <= Rmax (-1 + 1 / 1000000) d
    /\ Rmin d (1 - 1 / 1000000) <= u <= Rmax d (1 - 1 / 1000000)
    /\ -1 <= l <= 1 /\ -1 <= u <= 1.
Proof.
  intros Hbr H1 H2 Hrun.
  destruct (interval_bounds sf cdf brentq g1 g2 delta alpha alt r Hbr H1 H2 Hrun)
    as (d & l & u & Hd & Hrange & Hci & Hl & Hu).
  exists d, l, u. repeat split; try assumption; try lra.
  - pose proof (Rmin_glb (-1 + 1 / 1000000) d (-1)). lra.
  - pose proof (Rmax_lub (-1 + 1 / 1000000) d 1). lra.
  - pose proof (Rmin_glb d (1 - 1 / 1000000) (-1)). lra.
  - pose proof (Rmax_lub d (1 - 1 / 1000000) 1). lra.
Qed.

Lemma interval_within_unit_range_witness :
  exists r l u,
    farrington_manning sf_stub cdf_stub brentq_stub [true; false] [false; false]
      (Fin 0) "two-sided" (Fin (1 / 20)) = Ok r
    /\ ci r = (Fin l, Fin u) /\ -1 <= l <= 1 /\ -1 <= u <= 1.
Proof.
  destruct example_interior as (Hdiff & sd & Hsd & Hsolve).
  destruct (stub_run_interior [true; false] [false; false] (Fin 0) "two-sided"
              (1 / 20) (1 / 2) sd) as (r & Hr & _);
    try assumption; try (simpl; auto; fail); try lra.
  { unfold alpha_mod_of. simpl. lra. }
  destruct (interval_within_unit_range sf_stub cdf_stub brentq_stub
              [true; false] [false; false] (Fin 0) (Fin (1 / 20)) "two-sided" r
              brentq_stub_between ltac:(discriminate) ltac:(discriminate) Hr)
    as (d & l & u & _ & Hci & _ & _ & Hl & Hu).
  exists r, l, u. repeat split; try assumption; lra.
Defined.

(** ** The interval test of the test file *)

(** X13. With a root-finder that returns a point of its bracket,
    [test_farrington_ci] passes exactly when the call on the test data
    returns: the absolute tolerance 5 accepts every interval inside
    [[-1, 1]], so the expected bounds place no constraint. *)
Theorem ci_test_passes_iff_call_returns
    (sf cdf : fval -> fval) (brentq : (fval -> fval) -> fval -> fval -> result fval) :
  (forall f a b x, brentq f (Fin a) (Fin b) = Ok x -> between (Fin a) (Fin b) x) ->
  test_farrington_ci sf cdf brentq
  <-> exists actual,
        farrington_manning sf cdf brentq test_x test_y (Fin (-3 / 10)) "greater"
          (Fin (1 / 20)) = Ok actual.
Proof.
  intros Hbr. unfold test_farrington_ci.
  destruct (farrington_manning sf cdf brentq test_x test_y (Fin (-3 / 10)) "greater"
              (Fin (1 / 20))) as [actual|e] eqn:Hrun.
  - split; [intros _; eauto|]. intros _.
    destruct (interval_bounds sf cdf brentq test_x test_y (Fin (-3 / 10)) (Fin (1 / 20))
                "greater" actual Hbr ltac:(discriminate) ltac:(discriminate) Hrun)
      as (d & l & u & _ & Hd & Hci & Hl & Hu).
    rewrite Hci. cbn [fst snd isclose].
    assert (Hl' : -1 <= l <= 1).
    { pose proof (Rmin_glb (-1 + 1 / 1000000) d (-1)).
      pose proof (Rmax_lub (-1 + 1 / 1000000) d 1). lra. }
    assert (Hu' : -1 <= u <= 1).
    { pose proof (Rmin_glb d (1 - 1 / 1000000) (-1)).
      pose proof (Rmax_lub d (1 - 1 / 1000000) 1). lra. }
    split.
    + pose proof (Rabs_pos (-1824742 / 10000000)).
      apply Rle_trans with 5; [|lra]. apply Rabs_le. lra.
    + pose proof (Rabs_pos (2282376 / 10000000)).
      apply Rle_trans with 5; [|lra]. apply Rabs_le. lra.
  - split; [contradiction|]. intros (actual & H). discriminate H.
Qed.

Lemma test_data_means :
  np_mean test_x = Fin (4 / 7) /\ np_mean test_y = Fin (6 / 11).
Proof.
  split.
  - rewrite np_mean_nonempty by discriminate.
    change (list_sum (map int_of_bool test_x)) with 20%nat.
    change (List.length test_x) with 35%nat.
    rewrite !INR_IZR_INZ. simpl Z.of_nat. f_equal. field.
  - rewrite np_mean_nonempty by discriminate.
    change (list_sum (map int_of_bool test_y)) with 30%nat.
    change (List.length test_y) with 55%nat.
    rewrite !INR_IZR_INZ. simpl Z.of_nat. f_equal. field.
Qed.

(** The solver on the data of the tests: a positive number. *)
Lemma test_data_solver :
  exists sd, 0 < sd <= 1
    /\ _get_sd_diff_ML_null (List.length test_x) (List.length test_y)
         (np_mean test_x) (np_mean test_y) (Fin (-3 / 10)) = Ok (Fin sd).
Proof.
  destruct test_data_means as (E1 & E2). rewrite E1, E2.
  change (List.length test_x) with 35%nat. change (List.length test_y) with 55%nat.
  assert (Hth : Spec.theta 35 55 = 11 / 7).
  { unfold Spec.theta. rewrite !INR_IZR_INZ. simpl Z.of_nat. field. }
  assert (Hv : Spec.v 35 55 (4 / 7) (6 / 11) (-3 / 10) <> 0).
  { assert (E : Spec.v 35 55 (4 / 7) (6 / 11) (-3 / 10) = -967 / 629856).
    { unfold Spec.v, Spec.b, Spec.c, Spec.d, Spec.a. rewrite Hth. field. }
    rewrite E. lra. }
  exists (Spec.sd_null 35 55 (4 / 7) (6 / 11) (-3 / 10)).
  split; [|apply solver_valid; try lia; lra].
  pose proof (p1_null_range 35 55 (4 / 7) (6 / 11) (-3 / 10)
                ltac:(lia) ltac:(lia) ltac:(lra) ltac:(lra) ltac:(lra) Hv) as Hr.
  unfold lo, hi in Hr. rewrite Rmax_left, Rmin_right in Hr by lra.
  unfold Spec.sd_null, Spec.variance, Spec.p2_null.
  set (p := Spec.p1_null 35 55 (4 / 7) (6 / 11) (-3 / 10)) in *.
  replace (INR 35) with 35 by (rewrite INR_IZR_INZ; reflexivity).
  replace (INR 55) with 55 by (rewrite INR_IZR_INZ; reflexivity).
  split.
  - apply sqrt_lt_R0.
    destruct (Rle_dec p (1 / 3)); nra.
  - apply Rle_trans with (sqrt 1); [|rewrite sqrt_1; lra].
    apply sqrt_le_1_alt.
    pose proof (product_quarter p). pose proof (product_quarter (p - -3 / 10)). lra.
Qed.

Lemma ci_test_passes_iff_call_returns_witness :
  test_farrington_ci sf_stub cdf_stub brentq_stub.
Proof.
  apply (ci_test_passes_iff_call_returns sf_stub cdf_stub brentq_stub
           brentq_stub_between).
  destruct test_data_means as (E1 & E2).
  destruct test_data_solver as (sd & Hsd & Hsolve).
  destruct (stub_run_interior test_x test_y (Fin (-3 / 10)) "greater"
              (1 / 20) (2 / 77) sd) as (r & Hr & _);
    try assumption; try (simpl; auto; fail); try lra.
  - rewrite E1, E2. cbn [Float.sub Float.neg Float.add]. f_equal. field.
  - unfold alpha_mod_of. simpl. lra.
  - exists r. exact Hr.
Defined.

(** ** A margin that is not a number *)

Lemma div_nan (x : fval) : (x / NaN)%fl = NaN.
Proof. destruct x; reflexivity. Qed.

(** X14. An infinite or NaN margin is not rejected: for non-empty
    groups the solver returns NaN without raising, and every result the
    call returns has a NaN statistic. *)
Theorem nonfinite_margin_gives_nan
    (sf cdf : fval -> fval) (brentq : (fval -> fval) -> fval -> fval -> result fval)
    (g1 g2 : list bool) (delta alpha : fval) (alt : string) :
  g1 <> [] -> g2 <> [] ->
  (forall d, delta <> Fin d) ->
  _get_sd_diff_ML_null (List.length g1) (List.length g2)
    (np_mean g1) (np_mean g2) delta = Ok NaN
  /\ forall r, farrington_manning sf cdf brentq g1 g2 delta alt alpha = Ok r ->
               z_statistic r = NaN.
Proof.
  intros H1 H2 Hd.
  destruct (np_mean_unit g1 H1) as (p1 & E1 & R1 & _).
  destruct (np_mean_unit g2 H2) as (p2 & E2 & R2 & _).
  assert (Hsolve : _get_sd_diff_ML_null (List.length g1) (List.length g2)
                     (np_mean g1) (np_mean g2) delta = Ok NaN).
  { rewrite E1, E2. destruct g1 as [|x g1]; [contradiction|]. cbn [List.length].
    apply solver_nonfinite_delta; [lra | exact Hd]. }
  split; [exact Hsolve|].
  intros r Hrun. apply farrington_manning_ok_inv in Hrun.
  destruct Hrun as (_ & sd & lo_ & hi_ & Hsd & _ & _ & _ & Hz & _).
  cbv zeta in Hsd, Hz. rewrite Hsolve in Hsd. injection Hsd as <-.
  rewrite Hz. unfold _get_z. apply div_nan.
Qed.

Lemma nonfinite_margin_gives_nan_witness :
  _get_sd_diff_ML_null 2 2 (np_mean [true; false]) (np_mean [false; false]) PInf
  = Ok NaN.
Proof.
  apply (proj1 (nonfinite_margin_gives_nan sf_stub cdf_stub brentq_stub
                  [true; false] [false; false] PInf (Fin (1 / 20)) "two-sided"
                  ltac:(discriminate) ltac:(discriminate)
                  ltac:(intros d; discriminate))).
Defined.

(** ** What the solver can return *)

Lemma sqrt_result (x y : fval) :
  Float.sqrt x = Ok y -> y = NaN \/ y = PInf \/ exists s, y = Fin s /\ 0 <= s.
Proof.
  destruct x as [r| | |]; simpl.
  - destruct (Rlt_dec r 0); [discriminate|]. intros [= <-].
    right. right. eexists. split; [reflexivity | apply sqrt_pos].
  - intros [= <-]. right. left. reflexivity.
  - discriminate.
  - intros [= <-]. left. reflexivity.
Qed.

(** X15. Whatever its arguments, the solver never returns a negative
    number or minus infinity: a returned value is NaN, plus infinity or
    a number that is at least 0. *)
Theorem solver_never_negative (n1 n2 : nat) (p1_ml p2_ml delta sd : fval) :
  _get_sd_diff_ML_null n1 n2 p1_ml p2_ml delta = Ok sd ->
  sd = NaN \/ sd = PInf \/ exists s, sd = Fin s /\ 0 <= s.
Proof.
  unfold _get_sd_diff_ML_null. intros H.
  apply bind_ok in H. destruct H as (theta & _ & H). cbv zeta in H.
  apply bind_ok in H. destruct H as (r & _ & H).
  apply bind_ok in H. destruct H as (ac & _ & H).
  apply bind_ok in H. destruct H as (cw & _ & H).
  exact (sqrt_result _ _ H).
Qed.

Lemma solver_never_negative_witness :
  exists sd,
    _get_sd_diff_ML_null 2 2 (Fin (1 / 2)) (Fin 0) (Fin 0) = Ok sd
    /\ (sd = NaN \/ sd = PInf \/ exists s, sd = Fin s /\ 0 <= s).
Proof.
  assert (Hs : _get_sd_diff_ML_null 2 2 (Fin (1 / 2)) (Fin 0) (Fin 0)
               = Ok (Fin (Spec.sd_null 2 2 (1 / 2) 0 0))).
  { apply solver_valid; try lia; try lra.
    assert (Hv : Spec.v 2 2 (1 / 2) 0 0 = - 35 / 1728).
    { unfold Spec.v, Spec.b, Spec.c, Spec.d, Spec.a, Spec.theta. simpl. field. }
    rewrite Hv. lra. }
  eexists. split; [exact Hs|].
  apply (solver_never_negative 2 2 (Fin (1 / 2)) (Fin 0) (Fin 0)). exact Hs.
Defined.

(** ** Extreme estimates *)

Lemma rate_difference_value (g1 g2 : list bool) (b1 b2 : bool) :
  g1 <> [] -> g2 <> [] -> Forall (eq b1) g1 -> Forall (eq b2) g2 ->
  (np_mean g1 - np_mean g2)%fl
  = Fin ((if b1 then 1 else 0) + - (if b2 then 1 else 0)).
Proof.
  intros H1 H2 F1 F2. rewrite !np_mean_nonempty by assumption.
  rewrite (successes_constant b1 g1 F1), (successes_constant b2 g2 F2).
  assert (Hn1 : 0 < INR (List.length g1)).
  { destruct g1; [contradiction|]. apply INR_S_pos. }
  assert (Hn2 : 0 < INR (List.length g2)).
  { destruct g2; [contradiction|]. apply INR_S_pos. }
  cbn [Float.sub Float.neg Float.add]. f_equal.
  destruct b1, b2; simpl INR; field; lra.
Qed.

(** X16. When every outcome of [group1] is a success and every outcome
    of [group2] a failure, the estimate is 1 and the upper bracket is
    [[1, 1 - 1e-6]]: with a root-finder that returns a point of its
    bracket, an upper bound that is found lies within [1e-6] below the
    estimate, never above it. *)
Theorem full_separation_pins_upper_bound
    (sf cdf : fval -> fval) (brentq : (fval -> fval) -> fval -> fval -> result fval)
    (g1 g2 : list bool) (delta alpha : fval) (alt : string) (r : TestResult) :
  (forall f a b x, brentq f (Fin a) (Fin b) = Ok x -> between (Fin a) (Fin b) x) ->
  g1 <> [] -> g2 <> [] ->
  Forall (eq true) g1 -> Forall (eq false) g2 ->
  farrington_manning sf cdf brentq g1 g2 delta alt alpha = Ok r ->
  rate_difference r = Fin 1
  /\ exists u, snd (ci r) = Fin u /\ 1 - 1 / 1000000 <= u <= 1.
Proof.
  intros Hbr H1 H2 F1 F2 Hrun.
  pose proof (rate_difference_value g1 g2 true false H1 H2 F1 F2) as Hd.
  destruct (interval_bounds sf cdf brentq g1 g2 delta alpha alt r Hbr H1 H2 Hrun)
    as (d & l & u & Hrd & _ & Hci & _ & Hu).
  apply farrington_manning_ok_inv in Hrun.
  destruct Hrun as (_ & sd & lo_ & hi_ & _ & _ & _ & Hrd' & _).
  cbv zeta in Hrd'. rewrite Hd in Hrd'. simpl in Hrd'.
  assert (Ed : d = 1).
  { rewrite Hrd' in Hrd. injection Hrd as <-. lra. }
  subst d. split.
  - rewrite Hrd'. f_equal. lra.
  - exists u. rewrite Hci. split; [reflexivity|].
    rewrite Rmin_right, Rmax_left in Hu by lra. exact Hu.
Qed.

Lemma example_full_separation_run :
  exists r,
    farrington_manning sf_stub cdf_stub brentq_stub [true] [false; false]
      (Fin 0) "greater" (Fin (4999999 / 10000000)) = Ok r.
Proof.
  destruct example_all_vs_none as (Hdiff & sd & Hsd & Hsolve).
  destruct (stub_run_ok [true] [false; false] (Fin 0) "greater"
              (4999999 / 10000000) 1 sd) as (r & Hr & _);
    try assumption; try (simpl; auto; fail).
  - lra.
  - unfold alpha_mod_of. simpl. lra.
  - rewrite Rabs_pos_eq; lra.
  - unfold alpha_mod_of. simpl. rewrite Rabs_pos_eq by lra. apply inv_bound; lra.
  - rewrite Rabs_pos_eq; lra.
  - unfold alpha_mod_of. simpl. rewrite Rabs_pos_eq by lra. apply inv_bound; lra.
  - exists r. exact Hr.
Qed.

Lemma full_separation_pins_upper_bound_witness :
  exists r u,
    farrington_manning sf_stub cdf_stub brentq_stub [true] [false; false]
      (Fin 0) "greater" (Fin (4999999 / 10000000)) = Ok r
    /\ rate_difference r = Fin 1
    /\ snd (ci r) = Fin u /\ 1 - 1 / 1000000 <= u <= 1.
Proof.
  destruct example_full_separation_run as (r & Hr).
  destruct (full_separation_pins_upper_bound sf_stub cdf_stub brentq_stub
              [true] [false; false] (Fin 0) (Fin (4999999 / 10000000)) "greater" r
              brentq_stub_between ltac:(discriminate) ltac:(discriminate)
              ltac:(repeat constructor) ltac:(repeat constructor) Hr)
    as (Hd & u & Hu & Hrange).
  exists r, u. repeat split; try assumption; lra.
Defined.

(** ** The three p-values of one data set *)

(** X17. On the same groups and margin, the statistic is the same for
    the three alternatives, and the two-sided p-value is twice the
    smaller of the two one-sided p-values ("greater" first), whatever
    the levels of the three calls. *)
Theorem two_sided_p_value_from_one_sided
    (sf cdf : fval -> fval) (brentq : (fval -> fval) -> fval -> fval -> result fval)
    (g1 g2 : list bool) (delta a_t a_g a_l : fval) (alt_t alt_g alt_l : string)
    (r_t r_g r_l : TestResult) :
  casefold alt_t = "two-sided"%string ->
  casefold alt_g = "greater"%string ->
  casefold alt_l = "less"%string ->
  farrington_manning sf cdf brentq g1 g2 delta alt_t a_t = Ok r_t ->
  farrington_manning sf cdf brentq g1 g2 delta alt_g a_g = Ok r_g ->
  farrington_manning sf cdf brentq g1 g2 delta alt_l a_l = Ok r_l ->
  z_statistic r_g = z_statistic r_t
  /\ z_statistic r_l = z_statistic r_t
  /\ p_value r_t = (#2 * Float.min (p_value r_g) (p_value r_l))%fl.
Proof.
  intros Et Eg El Ht Hg Hl.
  apply farrington_manning_ok_inv in Ht, Hg, Hl.
  destruct Ht as (_ & sd_t & ? & ? & Hs_t & _ & _ & _ & Hz_t & Hp_t & _).
  destruct Hg as (_ & sd_g & ? & ? & Hs_g & _ & _ & _ & Hz_g & Hp_g & _).
  destruct Hl as (_ & sd_l & ? & ? & Hs_l & _ & _ & _ & Hz_l & Hp_l & _).
  cbv zeta in *.
  rewrite Hs_t in Hs_g, Hs_l. injection Hs_g as <-. injection Hs_l as <-.
  rewrite Et in Hp_t. rewrite Eg in Hp_g. rewrite El in Hp_l.
  cbn [String.eqb Ascii.eqb Bool.eqb] in Hp_t, Hp_g, Hp_l.
  rewrite Hz_g, Hz_l, Hz_t, Hp_t, Hp_g, Hp_l. repeat split.
Qed.

Lemma two_sided_p_value_from_one_sided_witness :
  exists r_t r_g r_l,
    farrington_manning sf_stub cdf_stub brentq_stub [true; false] [false; false]
      (Fin 0) "two-sided" (Fin (1 / 20)) = Ok r_t
    /\ farrington_manning sf_stub cdf_stub brentq_stub [true; false] [false; false]
         (Fin 0) "greater" (Fin (1 / 20)) = Ok r_g
    /\ farrington_manning sf_stub cdf_stub brentq_stub [true; false] [false; false]
         (Fin 0) "less" (Fin (1 / 20)) = Ok r_l
    /\ p_value r_t = (#2 * Float.min (p_value r_g) (p_value r_l))%fl.
Proof.
  destruct example_interior as (Hdiff & sd & Hsd & Hsolve).
  destruct (stub_run_interior [true; false] [false; false] (Fin 0) "two-sided"
              (1 / 20) (1 / 2) sd) as (r_t & Ht & _);
    try assumption; try (simpl; auto; fail); try lra.
  { unfold alpha_mod_of. simpl. lra. }
  destruct (stub_run_interior [true; false] [false; false] (Fin 0) "greater"
              (1 / 20) (1 / 2) sd) as (r_g & Hg & _);
    try assumption; try (simpl; auto; fail); try lra.
  { unfold alpha_mod_of. simpl. lra. }
  destruct (stub_run_interior [true; false] [false; false] (Fin 0) "less"
              (1 / 20) (1 / 2) sd) as (r_l & Hl & _);
    try assumption; try (simpl; auto; fail); try lra.
  { unfold alpha_mod_of. simpl. lra. }
  exists r_t, r_g, r_l. repeat split; try assumption.
  apply (two_sided_p_value_from_one_sided sf_stub cdf_stub brentq_stub
           [true; false] [false; false] (Fin 0) (Fin (1 / 20)) (Fin (1 / 20))
           (Fin (1 / 20)) "two-sided" "greater" "less" r_t r_g r_l
           eq_refl eq_refl eq_refl Ht Hg Hl).
Defined.
